(** * Marsupial Gurgle audio file parsing tool: a shallow embedding of
    [parse_import.py] and the properties of its scanner and writer.

    The Python module has three parts: [parse_audio_tags], [scan_clips] and
    [create_database_entries], followed by the module-level script that wires
    them together.  The file system, the tag decoder (TinyTag) and the MySQL
    store are collaborators outside the module; they appear here as the
    records [FileSystem] and [Store], and every call made to them is
    recorded in the [World] the program runs in. *)

From Stdlib Require Import List String Ascii Bool Arith ZArith Lia.
From Stdlib Require Import Permutation Sorted.
Import ListNotations.

Local Open Scope string_scope.
Local Open Scope list_scope.

Set Implicit Arguments.

(** ** Python values, exceptions and the program monad *)

(** The dynamically typed scalars that travel between TinyTag, the clip
    records and the SQL parameters.  A string is the sequence of the bytes
    of its UTF-8 encoding, whose order is the order of the code points. *)
Inductive Value : Type :=
| VNone
| VStr (s : string)
| VInt (z : Z)
| VBool (b : bool).

(** Exception classes the module can meet.  [TinyTagException] stands for
    the class and its subclasses (parse errors, unsupported formats);
    [Error] is any other exception class, which no handler of the module
    catches. *)
Inductive exn : Type :=
| TinyTagException
| ValueError
| KeyError
| SystemExit
| Error (cls : string).

Inductive result (A : Type) : Type :=
| Ok (a : A)
| Raise (e : exn).

Arguments Ok {A} a.
Arguments Raise {A} e.

(** A computation over a world [W]: it returns or raises, and the world it
    leaves behind is kept in both cases (what was sent to a collaborator
    before an exception stays sent). *)
Definition Prog (W A : Type) : Type := W -> result A * W.

Definition ret {W A : Type} (a : A) : Prog W A := fun w => (Ok a, w).

Definition raise {W A : Type} (e : exn) : Prog W A := fun w => (Raise e, w).

Definition bind {W A B : Type} (m : Prog W A) (k : A -> Prog W B) : Prog W B :=
  fun w =>
    match m w with
    | (Ok a, w') => k a w'
    | (Raise e, w') => (Raise e, w')
    end.

Definition lift {W A : Type} (r : result A) : Prog W A := fun w => (r, w).

Declare Scope prog_scope.
Delimit Scope prog_scope with prog.
Notation "x <- m ;; k" := (bind m (fun x => k))
  (at level 100, m at next level, right associativity) : prog_scope.
Notation "m ;;; k" := (bind m (fun _ => k))
  (at level 100, right associativity) : prog_scope.
Local Open Scope prog_scope.

(** [for x in l: s = body s x], the loop variable threaded explicitly. *)
Fixpoint for_each {W S A : Type} (body : S -> A -> Prog W S) (l : list A) (s : S)
  : Prog W S :=
  match l with
  | [] => ret s
  | x :: l' => s' <- body s x ;; for_each body l' s'
  end.

(** ** Insertion-ordered dictionaries *)

(** A Python [dict] with string keys: iteration follows insertion order, so
    it is an association list whose keys are kept distinct by [dict_set]. *)
Definition dict (V : Type) : Type := list (string * V).

Fixpoint dict_get {V : Type} (k : string) (d : dict V) : option V :=
  match d with
  | [] => None
  | (k', v) :: d' => if String.eqb k k' then Some v else dict_get k d'
  end.

(** [d[k] = v]: overwrite in place when the key is there, append otherwise. *)
Fixpoint dict_set {V : Type} (k : string) (v : V) (d : dict V) : dict V :=
  match d with
  | [] => [(k, v)]
  | (k', v') :: d' =>
      if String.eqb k k' then (k', v) :: d' else (k', v') :: dict_set k v d'
  end.

Definition dict_keys {V : Type} (d : dict V) : list string := map fst d.

(** ** Paths (pathlib) *)

(** A path is its list of components; the scanned root is a prefix of every
    path that [rglob] yields. *)
Definition Path : Type := list string.

Definition path_name (p : Path) : string := last p "".

Definition path_parent (p : Path) : Path := removelast p.

(** [name.rfind(".")], [None] for the -1 of Python. *)
Fixpoint rfind (c : ascii) (s : string) : option nat :=
  match s with
  | EmptyString => None
  | String a s' =>
      match rfind c s' with
      | Some i => Some (S i)
      | None => if Ascii.eqb a c then Some 0 else None
      end
  end.

(** The index at which pathlib (through Python 3.13) splits a file name
    into stem and suffix: the last dot, unless it is the first or the last
    character. *)
Definition split_index (name : string) : option nat :=
  match rfind "."%char name with
  | Some i =>
      if (Nat.ltb 0 i && Nat.ltb i (String.length name - 1))%bool then Some i
      else None
  | None => None
  end.

Definition name_stem (name : string) : string :=
  match split_index name with
  | Some i => substring 0 i name
  | None => name
  end.

Definition name_suffix (name : string) : string :=
  match split_index name with
  | Some i => substring i (String.length name - i) name
  | None => ""
  end.

Definition path_stem (p : Path) : string := name_stem (path_name p).

Definition path_suffix (p : Path) : string := name_suffix (path_name p).

(** [p.relative_to(other)]: [ValueError] when [other] is not a prefix. *)
Fixpoint relative_to (p other : Path) {struct other} : result Path :=
  match other with
  | [] => Ok p
  | o :: other' =>
      match p with
      | [] => Raise ValueError
      | c :: p' =>
          if String.eqb o c then relative_to p' other' else Raise ValueError
      end
  end.

(** [p / s] for a single component [s]: pathlib keeps neither an empty
    component nor a single dot. *)
Definition joinpath (p : Path) (s : string) : Path :=
  if (String.eqb s "" || String.eqb s ".")%bool then p else p ++ [s].

(** [str(p)] of a relative path; the empty relative path prints as a dot. *)
Definition path_str (p : Path) : string :=
  match p with
  | [] => "."
  | _ => String.concat "/" p
  end.

(** *** The order on paths used by [sorted] *)

Section Lexicographic.
Variable A : Type.
Variable cmp : A -> A -> comparison.

Fixpoint lex_compare (l1 l2 : list A) : comparison :=
  match l1, l2 with
  | [], [] => Eq
  | [], _ :: _ => Lt
  | _ :: _, [] => Gt
  | a :: l1', b :: l2' =>
      match cmp a b with
      | Eq => lex_compare l1' l2'
      | c => c
      end
  end.

End Lexicographic.

(** Python compares strings code point by code point. *)
Definition str_compare (s t : string) : comparison :=
  lex_compare Ascii.compare (list_ascii_of_string s) (list_ascii_of_string t).

(** Paths compare as the lists of their components. *)
Definition path_compare (p q : Path) : comparison := lex_compare str_compare p q.

Definition path_ltb (p q : Path) : bool :=
  match path_compare p q with Lt => true | _ => false end.

(** [sorted]: a stable sort that only asks [<], as Python's does. *)
Fixpoint insert_sorted (p : Path) (l : list Path) : list Path :=
  match l with
  | [] => [p]
  | q :: l' => if path_ltb q p then q :: insert_sorted p l' else p :: q :: l'
  end.

Definition sorted (l : list Path) : list Path := fold_right insert_sorted [] l.

(** The components of [s] between separators. *)
Fixpoint split_on (c : ascii) (s : string) : list string :=
  match s with
  | EmptyString => [EmptyString]
  | String a s' =>
      if Ascii.eqb a c then EmptyString :: split_on c s'
      else
        match split_on c s' with
        | [] => [String a EmptyString]
        | x :: l => String a x :: l
        end
  end.

(** The root of a path given as a string: one leading slash, or exactly
    two, is kept as the first component of an absolute path. *)
Definition root_of_string (s : string) : Path :=
  if String.prefix "///" s then ["/"]
  else if String.prefix "//" s then ["//"]
  else if String.prefix "/" s then ["/"]
  else [].

(** [Path(s)]: the root, if any, and the components of [s] between
    separators; empty components and single dots are dropped. *)
Definition Path_of_string (s : string) : Path :=
  root_of_string s ++
  filter (fun c => negb (String.eqb c "" || String.eqb c "."))
    (split_on "/"%char s).

(** ** Records of the module *)

(** The classes [TagMetadata] and [ClipInformation] of the module are
    declared and never instantiated; the scanner and the writer exchange
    plain dictionaries, which are the records below. *)

(** The attributes of a [TinyTag] object that the module reads. *)
Record TinyTag : Type := mkTinyTag {
  tt_album : Value;
  tt_artist : Value;
  tt_title : Value;
  tt_year : Value
}.

(** The dictionary [parse_audio_tags] returns, keys "album", "artist",
    "title" and "year". *)
Record tag_dict : Type := mkTags {
  tag_album : Value;
  tag_artist : Value;
  tag_title : Value;
  tag_year : Value
}.

(** The per-clip dictionary of [_all_metadata].  The keys "key", "parent",
    "stem" and "suffixes" are always there; [ci_tags] is [None] when the
    dictionary has no "tags" key, [Some None] when the key holds Python's
    [None], and [Some (Some t)] when it holds a tag dictionary. *)
Record clip_info : Type := mkClip {
  ci_key : string;
  ci_parent : string;
  ci_stem : string;
  ci_suffixes : list string;
  ci_tags : option (option tag_dict)
}.

Definition append_suffix (c : clip_info) (suffix : string) : clip_info :=
  mkClip (ci_key c) (ci_parent c) (ci_stem c) (ci_suffixes c ++ [suffix])
    (ci_tags c).

Definition set_tags (c : clip_info) (t : option tag_dict) : clip_info :=
  mkClip (ci_key c) (ci_parent c) (ci_stem c) (ci_suffixes c) (Some t).

(** ** Collaborators and the world *)

(** A statement handed to [cursor.execute]: the query text and its
    parameter tuple. *)
Record Stmt : Type := mkStmt {
  stmt_query : string;
  stmt_params : list Value
}.

Definition Row : Type := list Value.

(** Everything the program sends to a collaborator, in the order sent. *)
Inductive Event : Type :=
| ERglob (root : Path)
| ETinyTagGet (p : Path)
| EConnect (settings : dict Value)
| ECursor
| EExecute (s : Stmt)
| EFetchone
| ECursorClose
| EConnectionClose
| EPrint (msg : string).

(** The directory tree as the scanner sees it: what [rglob] enumerates
    under a root (in whatever order the operating system gives); what
    [is_file()] does on a path: it answers, or raises the [OSError] of the
    underlying [stat] when pathlib does not ignore it (a permission error
    on an entry of a directory that can be listed but not searched); and
    what [TinyTag.get] does on a path: it returns an object ([None] for
    one that tests false) or raises. *)
Record FileSystem : Type := mkFS {
  fs_rglob : Path -> list Path;
  fs_is_file : Path -> result bool;
  fs_tinytag : Path -> result (option TinyTag)
}.

(** The store: [connect] accepts or refuses the settings, [execute] runs
    one statement against the database, returning the rows of its result
    set or raising. *)
Record Store : Type := mkStore {
  store_db : Type;
  store_connect : dict Value -> result unit;
  store_execute : Stmt -> store_db -> result (list Row) * store_db
}.

Record World (D : Type) : Type := mkWorld {
  w_db : D;
  w_events : list Event
}.

Definition emit {D : Type} (e : Event) : Prog (World D) unit :=
  fun w => (Ok tt, mkWorld (w_db w) (w_events w ++ [e])).

(** [try: m except cls: h] for the exceptions selected by [catches]. *)
Definition try_except {W A : Type} (m : Prog W A) (catches : exn -> bool)
  (h : Prog W A) : Prog W A :=
  fun w =>
    match m w with
    | (Ok a, w') => (Ok a, w')
    | (Raise e, w') => if catches e then h w' else (Raise e, w')
    end.

Definition is_TinyTagException (e : exn) : bool :=
  match e with TinyTagException => true | _ => false end.

(** Truth value of a Python scalar. *)
Definition truthy (v : Value) : bool :=
  match v with
  | VNone => false
  | VStr s => negb (String.eqb s "")
  | VInt z => negb (Z.eqb z 0)
  | VBool b => b
  end.

(** [x in l] for a list of strings. *)
Definition contains (x : string) (l : list string) : bool :=
  existsb (String.eqb x) l.

(** ** The program *)

Section Program.
Variable fs : FileSystem.
Variable store : Store.

Local Abbreviation W := (World (store_db store)).

Definition TinyTag_get (p : Path) : Prog W (option TinyTag) :=
  emit (ETinyTagGet p) ;;; lift (fs_tinytag fs p).

Definition parse_audio_tags (audio_file_path : Path) : Prog W (option tag_dict) :=
  try_except
    (_file_tags <- TinyTag_get audio_file_path ;;
     match _file_tags with
     | Some t =>
         ret (Some (mkTags (tt_album t) (tt_artist t) (tt_title t) (tt_year t)))
     | None => ret None
     end)
    is_TinyTagException
    (ret None).

Definition rglob (clips_path : Path) : Prog W (list Path) :=
  emit (ERglob clips_path) ;;; ret (fs_rglob fs clips_path).

(** The body of the loop of [scan_clips], for one entry of the listing. *)
Definition scan_file (clips_path : Path) (_all_metadata : dict clip_info)
  (clip_file : Path) : Prog W (dict clip_info) :=
  is_file <- lift (fs_is_file fs clip_file) ;;
  if is_file then
    parent <- lift (relative_to (path_parent clip_file) clips_path) ;;
    let key := path_str (joinpath parent (path_stem clip_file)) in
    match dict_get key _all_metadata with
    | None =>
        tags <- parse_audio_tags clip_file ;;
        ret (dict_set key
               (mkClip key (path_str parent) (path_stem clip_file)
                  [path_suffix clip_file] (Some tags))
               _all_metadata)
    | Some info =>
        let info' := append_suffix info (path_suffix clip_file) in
        match ci_tags info' with
        | None =>
            tags <- parse_audio_tags clip_file ;;
            ret (dict_set key (set_tags info' tags) _all_metadata)
        | Some _ => ret (dict_set key info' _all_metadata)
        end
    end
  else ret _all_metadata.

Definition scan_clips (clips_path : Path) : Prog W (dict clip_info) :=
  listing <- rglob clips_path ;;
  let _all_clip_files := sorted listing in
  for_each (scan_file clips_path) _all_clip_files [].

Definition INSERT_CLIP : string :=
  "INSERT INTO `clips` (`key`, `stem`, `parent`, `mp3`, `m4a`, `m4r`) VALUES (%s, %s, %s, %s, %s, %s)".

Definition SELECT_ID : string :=
  "SELECT `id` FROM `clips` WHERE `key` = %s LIMIT 1".

Definition INSERT_TAG : string :=
  "INSERT INTO `tags` (`clip_id`, `artist`, `album`, `title`, `year`) VALUES (%s, %s, %s, %s, %s)".

Definition connect (settings : dict Value) : Prog W unit :=
  emit (EConnect settings) ;;; lift (store_connect store settings).

Definition connection_close : Prog W unit := emit EConnectionClose.

Definition cursor : Prog W unit := emit ECursor.

Definition cursor_close : Prog W unit := emit ECursorClose.

(** [_cursor.execute(query, params)]: the rows of the result set stay with
    the cursor. *)
Definition cursor_execute (query : string) (params : list Value)
  : Prog W (list Row) :=
  emit (EExecute (mkStmt query params)) ;;;
  (fun w =>
     let (r, db') := store_execute store (mkStmt query params) (w_db w) in
     (r, mkWorld db' (w_events w))).

(** [_cursor.fetchone()]: the first row, or [None]. *)
Definition fetchone (rows : list Row) : Prog W (option Row) :=
  emit EFetchone ;;; ret (hd_error rows).

(** Truth value of what [fetchone] returned: [None] and the empty tuple
    test false. *)
Definition row_truthy (r : option Row) : bool :=
  match r with
  | Some (_ :: _) => true
  | _ => false
  end.

Definition print (msg : string) : Prog W unit := emit (EPrint msg).

(** The body of the loop of [create_database_entries], for one key. *)
Definition write_clip (clips_info : dict clip_info) (clip : string)
  : Prog W unit :=
  clip_info <- lift (match dict_get clip clips_info with
                     | Some c => Ok c
                     | None => Raise KeyError
                     end) ;;
  let has_mp3 := contains ".mp3" (ci_suffixes clip_info) in
  let has_m4a := contains ".m4a" (ci_suffixes clip_info) in
  let has_m4r := contains ".m4r" (ci_suffixes clip_info) in
  cursor ;;;
  _ <- cursor_execute INSERT_CLIP
         [VStr (ci_key clip_info); VStr (ci_stem clip_info);
          VStr (ci_parent clip_info); VBool has_mp3; VBool has_m4a;
          VBool has_m4r] ;;
  cursor_close ;;;
  match ci_tags clip_info with
  | Some (Some tags) =>
      cursor ;;;
      rows <- cursor_execute SELECT_ID [VStr (ci_key clip_info)] ;;
      result <- fetchone rows ;;
      cursor_close ;;;
      if row_truthy result then
        let _id := hd VNone (match result with Some r => r | None => [] end) in
        cursor ;;;
        _ <- cursor_execute INSERT_TAG
               [_id; tag_artist tags; tag_album tags; tag_title tags;
                tag_year tags] ;;
        cursor_close
      else ret tt
  | _ =>
      print (ci_key clip_info ++ " does not have any audio tag metadata.")%string
  end.

Definition create_database_entries (clips_info : dict clip_info)
  (database_settings : dict Value) : Prog W unit :=
  match database_settings with
  | [] => ret tt
  | _ =>
      connect database_settings ;;;
      for_each (fun _ clip => write_clip clips_info clip)
        (dict_keys clips_info) tt ;;;
      connection_close
  end.

(** The module-level script.  The two settings files arrive already
    decoded; [sys.exit()] is the exception [SystemExit]; the value returned
    on normal termination is the binding of [_clips_info]. *)
Definition main (_app_settings _database_settings : dict Value)
  : Prog W (dict clip_info) :=
  let clips_directory :=
    match dict_get "clips_directory" _app_settings with
    | Some v => v
    | None => VNone
    end in
  if negb (truthy clips_directory) then raise SystemExit
  else
    match _database_settings with
    | [] => raise SystemExit
    | _ =>
        clips_path <- lift (match clips_directory with
                            | VStr s => Ok (Path_of_string s)
                            | _ => Raise (Error "TypeError")
                            end) ;;
        _clips_info <- scan_clips clips_path ;;
        match _clips_info with
        | [] => ret tt
        | _ => create_database_entries _clips_info _database_settings
        end ;;;
        ret _clips_info
    end.

End Program.

Arguments mkWorld {D} w_db w_events.

(** ** Concrete collaborators, for running the program *)

(** A store with the schema of the tool: a [clips] table whose key is
    unique and whose identity is generated, and a [tags] table. *)
Record TableDb : Type := mkDb {
  db_clips : list (Z * Row);
  db_tags : list Row
}.

Definition clip_row_key (r : Z * Row) : Value := hd VNone (snd r).

Definition value_eqb (a b : Value) : bool :=
  match a, b with
  | VNone, VNone => true
  | VStr s, VStr t => String.eqb s t
  | VInt x, VInt y => Z.eqb x y
  | VBool x, VBool y => Bool.eqb x y
  | _, _ => false
  end.

Definition table_execute (s : Stmt) (db : TableDb) : result (list Row) * TableDb :=
  if String.eqb (stmt_query s) INSERT_CLIP then
    if existsb (fun r => value_eqb (clip_row_key r) (hd VNone (stmt_params s)))
         (db_clips db)
    then (Raise (Error "IntegrityError"), db)
    else
      (Ok [],
       mkDb (db_clips db ++ [(Z.of_nat (S (List.length (db_clips db))), stmt_params s)])
         (db_tags db))
  else if String.eqb (stmt_query s) SELECT_ID then
    (Ok (map (fun r => [VInt (fst r)])
           (firstn 1
              (filter
                 (fun r => value_eqb (clip_row_key r) (hd VNone (stmt_params s)))
                 (db_clips db)))),
     db)
  else if String.eqb (stmt_query s) INSERT_TAG then
    (Ok [], mkDb (db_clips db) (db_tags db ++ [stmt_params s]))
  else (Raise (Error "ProgrammingError"), db).

Definition table_store : Store :=
  mkStore (fun _ => Ok tt) table_execute.

(** A store that accepts every statement and keeps nothing, so that every
    result set is empty. *)
Definition blackhole_store : Store :=
  mkStore (fun _ => Ok tt) (fun (_ : Stmt) (db : unit) => (Ok [], db)).

Definition sample_root : Path := ["clips"].

Definition track_mp3 : Path := ["clips"; "songs"; "track.mp3"].

Definition track_m4a : Path := ["clips"; "songs"; "track.m4a"].

Definition sample_tags : TinyTag :=
  mkTinyTag (VStr "B") (VStr "A") (VStr "T") (VInt 2001).

(** The tree of the end-to-end scenario: [songs/track.mp3] carries tags,
    [songs/track.m4a] is corrupt. *)
Definition sample_fs : FileSystem :=
  mkFS (fun _ => [track_mp3; ["clips"; "songs"]; track_m4a])
    (fun p => Ok (Nat.eqb (List.length p) 3))
    (fun p =>
       if list_eq_dec string_dec p track_mp3 then Ok (Some sample_tags)
       else Raise TinyTagException).

Definition empty_db : TableDb := mkDb [] [].

Definition sample_settings : dict Value := [("host", VStr "localhost")].

(** ** Vocabulary of the statements *)

(** [path_le p q]: [q] is not below [p]. *)
Definition path_le (p q : Path) : Prop := path_ltb q p = false.

(** The tree of [sample_fs], enumerated in another order. *)
Definition sample_fs_reordered : FileSystem :=
  mkFS (fun _ => [track_m4a; track_mp3; ["clips"; "songs"]])
    (fs_is_file sample_fs) (fs_tinytag sample_fs).

(** The key [scan_clips] computes for a file of the listing. *)
Definition clip_key (clips_path clip_file : Path) : result string :=
  match relative_to (path_parent clip_file) clips_path with
  | Ok parent => Ok (path_str (joinpath parent (path_stem clip_file)))
  | Raise e => Raise e
  end.

Definition has_key (clips_path : Path) (k : string) (clip_file : Path) : bool :=
  match clip_key clips_path clip_file with
  | Ok k' => String.eqb k' k
  | Raise _ => false
  end.

(** The value [parse_audio_tags] returns on a path; it depends on the file
    system alone. *)
Definition extracted (fs : FileSystem) (p : Path) : result (option tag_dict) :=
  fst (parse_audio_tags fs blackhole_store p (mkWorld tt [])).

(** The paths handed to [TinyTag.get], in call order. *)
Fixpoint tinytag_calls (evs : list Event) : list Path :=
  match evs with
  | [] => []
  | ETinyTagGet p :: evs' => p :: tinytag_calls evs'
  | _ :: evs' => tinytag_calls evs'
  end.

(** The statements handed to [cursor.execute], in call order. *)
Fixpoint executed (evs : list Event) : list Stmt :=
  match evs with
  | [] => []
  | EExecute s :: evs' => s :: executed evs'
  | _ :: evs' => executed evs'
  end.

(** A component of a path holds no separator. *)
Definition sep_free (s : string) : bool :=
  forallb (fun c => negb (Ascii.eqb c "/"%char)) (list_ascii_of_string s).

(** A file name: not empty, no separator. *)
Definition file_name (s : string) : bool :=
  (negb (String.eqb s "") && sep_free s)%bool.

(** An entry of the listing lies strictly below the root, and its
    components below the root are file names. *)
Definition under_root (clips_path p : Path) : bool :=
  match relative_to p clips_path with
  | Ok (c :: rel) => forallb file_name (c :: rel)
  | _ => false
  end.

Definition well_formed_listing (clips_path : Path) (l : list Path) : Prop :=
  forallb (under_root clips_path) l = true.

(** The stem of a path is a single dot; pathlib (through Python 3.13)
    splits a name such as "..mp3" into the stem "." and the suffix ".mp3". *)
Definition dot_stem (p : Path) : bool := String.eqb (path_stem p) ".".

(** [is_file()] answers [True] on the path: a regular file. *)
Definition is_regular (fs : FileSystem) (p : Path) : bool :=
  match fs_is_file fs p with
  | Ok true => true
  | _ => false
  end.

(** No regular file of the listing has a single dot for stem. *)
Definition no_dot_stems (fs : FileSystem) (l : list Path) : Prop :=
  forallb (fun p => negb (dot_stem p)) (filter (is_regular fs) l) = true.

(** [TinyTag.get] fails on a path only by [TinyTagException]. *)
Definition tinytag_benign (fs : FileSystem) (p : Path) : bool :=
  match fs_tinytag fs p with
  | Ok _ => true
  | Raise e => is_TinyTagException e
  end.

(** A separator-free string followed by nothing or by a separator: the
    shape of every component inside [String.concat "/"]. *)
Definition sep_headed (r : string) : Prop :=
  r = "" \/ exists r', r = String "/"%char r'.

(** What one iteration of the loop of [scan_clips] does to the mapping
    when it returns, with the calls it makes: the four ways through the
    body of the loop. *)
Inductive scan_step (fs : FileSystem) (clips_path : Path) (md : dict clip_info)
  (p : Path) : dict clip_info -> list Event -> Prop :=
| step_skip :
    fs_is_file fs p = Ok false ->
    scan_step fs clips_path md p md []
| step_new parent key tags :
    fs_is_file fs p = Ok true ->
    relative_to (path_parent p) clips_path = Ok parent ->
    key = path_str (joinpath parent (path_stem p)) ->
    dict_get key md = None ->
    extracted fs p = Ok tags ->
    scan_step fs clips_path md p
      (dict_set key
         (mkClip key (path_str parent) (path_stem p) [path_suffix p] (Some tags))
         md)
      [ETinyTagGet p]
| step_variant parent key info tags :
    fs_is_file fs p = Ok true ->
    relative_to (path_parent p) clips_path = Ok parent ->
    key = path_str (joinpath parent (path_stem p)) ->
    dict_get key md = Some info ->
    ci_tags info = Some tags ->
    scan_step fs clips_path md p
      (dict_set key (append_suffix info (path_suffix p)) md) []
| step_retry parent key info tags :
    fs_is_file fs p = Ok true ->
    relative_to (path_parent p) clips_path = Ok parent ->
    key = path_str (joinpath parent (path_stem p)) ->
    dict_get key md = Some info ->
    ci_tags info = None ->
    extracted fs p = Ok tags ->
    scan_step fs clips_path md p
      (dict_set key (set_tags (append_suffix info (path_suffix p)) tags) md)
      [ETinyTagGet p].

(** The regular files among the entries processed so far. *)
Definition regular (fs : FileSystem) (l : list Path) : list Path :=
  filter (is_regular fs) l.

(** The mapping is a well-formed dictionary whose records carry their own
    key, at least one suffix, and a "tags" entry. *)
Definition records_complete (md : dict clip_info) : Prop :=
  NoDup (dict_keys md) /\
  forall k info, dict_get k md = Some info ->
    ci_key info = k /\ ci_suffixes info <> [] /\ ci_tags info <> None.

(** A key is in the mapping exactly when a regular file bearing it was
    seen, and the record then lists the suffixes of those files in order. *)
Definition records_cover (fs : FileSystem) (clips_path : Path)
  (seen : list Path) (md : dict clip_info) : Prop :=
  forall k,
    match dict_get k md with
    | Some info =>
        ci_suffixes info =
        map path_suffix (filter (has_key clips_path k) (regular fs seen))
    | None => find (has_key clips_path k) (regular fs seen) = None
    end.

(** The tags, parent and stem of a record come from the first regular
    file bearing its key. *)
Definition records_from_first (fs : FileSystem) (clips_path : Path)
  (seen : list Path) (md : dict clip_info) : Prop :=
  forall k info, dict_get k md = Some info ->
    exists p tags,
      find (has_key clips_path k) (regular fs seen) = Some p /\
      extracted fs p = Ok tags /\
      ci_tags info = Some tags /\
      ci_stem info = path_stem p.

(** The tag decoder was called once per key of the mapping, in the order
    of the keys, each time on the first regular file bearing the key. *)
Definition one_call_per_key (fs : FileSystem) (clips_path : Path)
  (seen : list Path) (md : dict clip_info) (evs : list Event) : Prop :=
  Forall2 (fun p k => find (has_key clips_path k) (regular fs seen) = Some p)
    (tinytag_calls evs) (dict_keys md).

Definition parent_stem (p : Path) : Path * string := (path_parent p, path_stem p).

Definition parent_stem_dec (a b : Path * string) : {a = b} + {a <> b}.
Proof.
  decide equality; [apply string_dec | apply (list_eq_dec string_dec)].
Defined.

(** The key that a pair of directory and stem gives. *)
Definition key_of_pair (clips_path : Path) (ps : Path * string) : string :=
  match relative_to (fst ps) clips_path with
  | Ok parent => path_str (joinpath parent (snd ps))
  | Raise _ => ""
  end.

(** Every event a computation adds to the world satisfies [P], whether it
    returns or raises. *)
Definition emits {D A : Type} (P : Event -> Prop) (m : Prog (World D) A) : Prop :=
  forall w r w',
    m w = (r, w') ->
    exists evs, w_events w' = w_events w ++ evs /\ Forall P evs.


(** An inventory statement carries the key, stem and parent of a record of
    the mapping and three flags that tell whether its suffixes hold the
    three recognised extensions. *)
Definition inventory_row_of (clips_info : dict clip_info) (s : Stmt) : Prop :=
  exists clip info mp3 m4a m4r,
    dict_get clip clips_info = Some info /\
    stmt_params s =
      [VStr (ci_key info); VStr (ci_stem info); VStr (ci_parent info);
       VBool mp3; VBool m4a; VBool m4r] /\
    (mp3 = true <-> In ".mp3" (ci_suffixes info)) /\
    (m4a = true <-> In ".m4a" (ci_suffixes info)) /\
    (m4r = true <-> In ".m4r" (ci_suffixes info)).

Definition inventory_event (clips_info : dict clip_info) (e : Event) : Prop :=
  match e with
  | EExecute s => stmt_query s = INSERT_CLIP -> inventory_row_of clips_info s
  | _ => True
  end.

(** The inventory statements among the statements executed. *)
Definition clip_inserts (evs : list Event) : list Stmt :=
  filter (fun s => String.eqb (stmt_query s) INSERT_CLIP) (executed evs).

(** A store in which the clip of the scenario is already recorded. *)
Definition recorded_db : TableDb :=
  mkDb [(1%Z, [VStr "songs/track"; VStr "track"; VStr "songs"; VBool true;
               VBool true; VBool false])] [].

Definition tagged_clip : clip_info :=
  mkClip "songs/track" "songs" "track" [".mp3"; ".wav"]
    (Some (Some (mkTags (VStr "B") (VStr "A") (VStr "T") (VInt 2001)))).

(** The inventory statement [create_database_entries] builds for a record. *)
Definition inventory_stmt (info : clip_info) : Stmt :=
  mkStmt INSERT_CLIP
    [VStr (ci_key info); VStr (ci_stem info); VStr (ci_parent info);
     VBool (contains ".mp3" (ci_suffixes info));
     VBool (contains ".m4a" (ci_suffixes info));
     VBool (contains ".m4r" (ci_suffixes info))].

(** The record the scanner makes of the clip of the scenario, and the world
    it leaves behind. *)
Definition scanned_clip : clip_info :=
  mkClip "songs/track" "songs" "track" [".m4a"; ".mp3"] (Some None).

Definition scanned_world : World TableDb :=
  mkWorld empty_db [ERglob sample_root; ETinyTagGet track_m4a].

(** A tree in which the directory [songs/track] holds a file named
    "..mp3", next to the file [songs/track.mp3]. *)
Definition dotted_mp3 : Path := ["clips"; "songs"; "track"; "..mp3"].

Definition collision_fs : FileSystem :=
  mkFS (fun _ =>
          [["clips"; "songs"]; ["clips"; "songs"; "track"]; dotted_mp3;
           track_mp3])
    (fun p =>
       if list_eq_dec string_dec p dotted_mp3 then Ok true
       else if list_eq_dec string_dec p track_mp3 then Ok true
       else Ok false)
    (fun _ => Raise TinyTagException).

Definition sample_app_settings : dict Value :=
  [("clips_directory", VStr "clips")].

(** ** Vocabulary of the further properties *)

(** [is_file()] answers [False] on the path: an entry that is not a
    regular file. *)
Definition not_a_file (fs : FileSystem) (p : Path) : bool :=
  match fs_is_file fs p with
  | Ok false => true
  | _ => false
  end.

(** The tree with every entry on which [is_file()] answers [False] left
    out of the enumeration. *)
Definition files_only (fs : FileSystem) : FileSystem :=
  mkFS (fun root => filter (fun p => negb (not_a_file fs p)) (fs_rglob fs root))
    (fs_is_file fs) (fs_tinytag fs).

(** The keys of the files of a list that have one, in the order of the
    list. *)
Definition keys_of (clips_path : Path) (l : list Path) : list string :=
  flat_map (fun p => match clip_key clips_path p with
                     | Ok k => [k]
                     | Raise _ => []
                     end) l.

(** A list of keys with every key kept at its first occurrence only. *)
Fixpoint first_occurrences (l : list string) : list string :=
  match l with
  | [] => []
  | k :: l' =>
      k :: filter (fun k' => negb (String.eqb k' k)) (first_occurrences l')
  end.

(** The "key", "parent" and "stem" entries of a record are those computed
    from the first regular file bearing its key. *)
Definition records_named (fs : FileSystem) (clips_path : Path)
  (seen : list Path) (md : dict clip_info) : Prop :=
  forall k info, dict_get k md = Some info ->
    exists p parent,
      find (has_key clips_path k) (regular fs seen) = Some p /\
      relative_to (path_parent p) clips_path = Ok parent /\
      ci_key info = path_str (joinpath parent (path_stem p)) /\
      ci_parent info = path_str parent /\
      ci_stem info = path_stem p.

(** The keys of the mapping are the keys of the regular files seen, each
    at its first occurrence. *)
Definition keys_in_scan_order (fs : FileSystem) (clips_path : Path)
  (seen : list Path) (md : dict clip_info) : Prop :=
  dict_keys md = first_occurrences (keys_of clips_path (regular fs seen)).

(** A call of the decoder on a regular file of a list. *)
Definition decoder_call (fs : FileSystem) (l : list Path) (e : Event) : Prop :=
  exists p, e = ETinyTagGet p /\ In p l /\ fs_is_file fs p = Ok true.

(** The messages printed, in order. *)
Fixpoint printed (evs : list Event) : list string :=
  match evs with
  | [] => []
  | EPrint msg :: evs' => msg :: printed evs'
  | _ :: evs' => printed evs'
  end.

(** The records the writer visits: the value under each key, in the order
    of the keys. *)
Definition visited (clips_info : dict clip_info) : list clip_info :=
  flat_map (fun clip => match dict_get clip clips_info with
                        | Some info => [info]
                        | None => []
                        end) (dict_keys clips_info).

(** The test of line 86: the record has a "tags" entry that holds a tag
    dictionary. *)
Definition has_tags (info : clip_info) : bool :=
  match ci_tags info with
  | Some (Some _) => true
  | _ => false
  end.

Definition notice (info : clip_info) : string :=
  (ci_key info ++ " does not have any audio tag metadata.")%string.

(** A tree whose only entries are directories. *)
Definition bare_fs : FileSystem :=
  mkFS (fun _ => [["clips"; "songs"]; ["clips"; "songs"; "live"]])
    (fun _ => Ok false) (fun _ => Raise (Error "OSError")).

(** A clip without tags, as the scanner leaves it when extraction fails. *)
Definition untagged_clip : clip_info :=
  mkClip "songs/intro" "songs" "intro" [".m4r"] (Some None).

(** The identity lookups and the tag statements among the statements
    executed. *)
Definition lookups (evs : list Event) : list Stmt :=
  filter (fun s => String.eqb (stmt_query s) SELECT_ID) (executed evs).

Definition tag_inserts (evs : list Event) : list Stmt :=
  filter (fun s => String.eqb (stmt_query s) INSERT_TAG) (executed evs).

Definition lookup_stmt (info : clip_info) : Stmt :=
  mkStmt SELECT_ID [VStr (ci_key info)].

(** ** Vocabulary of the failures *)

(** [is_file()] answers on the path, whatever the answer. *)
Definition is_file_answers (fs : FileSystem) (p : Path) : bool :=
  match fs_is_file fs p with
  | Ok _ => true
  | Raise _ => false
  end.

(** The decoder raises nothing but [TinyTagException] on the first regular
    file of each key. *)
Definition first_files_benign (fs : FileSystem) (clips_path : Path)
  (l : list Path) : Prop :=
  forall k p,
    find (has_key clips_path k) (regular fs l) = Some p ->
    tinytag_benign fs p = true.

(** The ways an iteration of the scanner on a path can raise: [is_file()]
    raises; or the path is a regular file and either it does not lie under
    the root, or the decoder raises an exception that is not a
    [TinyTagException]. *)
Definition abort_cause (fs : FileSystem) (clips_path p : Path) (e : exn) : Prop :=
  fs_is_file fs p = Raise e \/
  (fs_is_file fs p = Ok true /\
   (relative_to (path_parent p) clips_path = Raise e \/
    (fs_tinytag fs p = Raise e /\ is_TinyTagException e = false))).

(** The tree of the scenario with a second variant that the decoder
    cannot even open: [songs/track.m4a] is rejected with
    [TinyTagException], [songs/track.mp3] makes the decoder raise an
    [OSError]. *)
Definition mixed_fs : FileSystem :=
  mkFS (fun _ => [track_mp3; ["clips"; "songs"]; track_m4a])
    (fun p => Ok (Nat.eqb (List.length p) 3))
    (fun p =>
       if list_eq_dec string_dec p track_m4a then Raise TinyTagException
       else Raise (Error "OSError")).

(** A tree with a directory that can be listed but not searched: asking
    whether its entry is a file raises. *)
Definition locked_fs : FileSystem :=
  mkFS (fun _ => [["clips"; "locked"]; ["clips"; "locked"; "sub"];
                  ["clips"; "ok"]; ["clips"; "ok"; "b.mp3"]])
    (fun p =>
       if list_eq_dec string_dec p ["clips"; "locked"; "sub"]
       then Raise (Error "PermissionError")
       else Ok (Nat.eqb (List.length p) 3))
    (fun _ => Ok (Some sample_tags)).




(** * Properties *)

(** ** The order on paths and [sorted] *)

Section LexicographicFacts.
Variable A : Type.
Variable cmp : A -> A -> comparison.
Hypothesis cmp_eq : forall a b, cmp a b = Eq -> a = b.
Hypothesis cmp_antisym : forall a b, cmp a b = CompOpp (cmp b a).
Hypothesis cmp_trans : forall a b c, cmp a b = Lt -> cmp b c = Lt -> cmp a c = Lt.

Lemma lex_compare_eq (l1 l2 : list A) : lex_compare cmp l1 l2 = Eq -> l1 = l2.
Proof.
  revert l2; induction l1 as [|a l1 IH]; intros [|b l2]; simpl; try congruence.
  destruct (cmp a b) eqn:E; try congruence.
  intros H. apply cmp_eq in E. apply IH in H. congruence.
Qed.

Lemma lex_compare_antisym (l1 l2 : list A) :
  lex_compare cmp l1 l2 = CompOpp (lex_compare cmp l2 l1).
Proof.
  revert l2; induction l1 as [|a l1 IH]; intros [|b l2]; simpl; auto.
  rewrite (cmp_antisym a b).
  destruct (cmp b a); simpl; auto.
Qed.

Lemma lex_compare_trans (l1 l2 l3 : list A) :
  lex_compare cmp l1 l2 = Lt -> lex_compare cmp l2 l3 = Lt ->
  lex_compare cmp l1 l3 = Lt.
Proof.
  revert l2 l3; induction l1 as [|a l1 IH]; intros [|b l2] [|c l3]; simpl;
    try congruence.
  destruct (cmp a b) eqn:Eab; try congruence.
  - apply cmp_eq in Eab; subst b.
    destruct (cmp a c); try congruence. apply IH.
  - intros _. destruct (cmp b c) eqn:Ebc; try congruence.
    + apply cmp_eq in Ebc; subst c. now rewrite Eab.
    + now rewrite (cmp_trans Eab Ebc).
Qed.

End LexicographicFacts.

Lemma ascii_compare_trans (a b c : ascii) :
  Ascii.compare a b = Lt -> Ascii.compare b c = Lt -> Ascii.compare a c = Lt.
Proof.
  unfold Ascii.compare. rewrite !N.compare_lt_iff. lia.
Qed.

Lemma list_ascii_of_string_inj (s t : string) :
  list_ascii_of_string s = list_ascii_of_string t -> s = t.
Proof.
  intros H.
  rewrite <- (string_of_list_ascii_of_string s), <- (string_of_list_ascii_of_string t).
  now rewrite H.
Qed.

Lemma str_compare_eq (s t : string) : str_compare s t = Eq -> s = t.
Proof.
  intros H. apply list_ascii_of_string_inj.
  exact (lex_compare_eq Ascii.compare Ascii.compare_eq_iff _ _ H).
Qed.

Lemma str_compare_antisym (s t : string) :
  str_compare s t = CompOpp (str_compare t s).
Proof. apply lex_compare_antisym, Ascii.compare_antisym. Qed.

Lemma str_compare_trans (s t u : string) :
  str_compare s t = Lt -> str_compare t u = Lt -> str_compare s u = Lt.
Proof.
  apply lex_compare_trans.
  - exact Ascii.compare_eq_iff.
  - exact ascii_compare_trans.
Qed.

Lemma path_compare_eq (p q : Path) : path_compare p q = Eq -> p = q.
Proof. apply lex_compare_eq, str_compare_eq. Qed.

Lemma path_compare_antisym (p q : Path) :
  path_compare p q = CompOpp (path_compare q p).
Proof. apply lex_compare_antisym, str_compare_antisym. Qed.

Lemma path_compare_trans (p q r : Path) :
  path_compare p q = Lt -> path_compare q r = Lt -> path_compare p r = Lt.
Proof.
  apply lex_compare_trans.
  - exact str_compare_eq.
  - exact str_compare_trans.
Qed.

Lemma path_le_of_lt (p q : Path) : path_ltb p q = true -> path_le p q.
Proof.
  unfold path_le, path_ltb. rewrite (path_compare_antisym q p).
  destruct (path_compare p q); simpl; congruence.
Qed.

Lemma path_le_antisym (p q : Path) : path_le p q -> path_le q p -> p = q.
Proof.
  unfold path_le, path_ltb. intros H1 H2.
  apply path_compare_eq. rewrite (path_compare_antisym q p) in H1.
  destruct (path_compare p q); simpl in *; congruence.
Qed.

Lemma path_le_trans (p q r : Path) : path_le p q -> path_le q r -> path_le p r.
Proof.
  unfold path_le, path_ltb. intros H1 H2.
  destruct (path_compare r p) eqn:Erp; auto. exfalso.
  destruct (path_compare q p) eqn:Eqp; try discriminate.
  - apply path_compare_eq in Eqp; subst q. rewrite Erp in H2. discriminate.
  - destruct (path_compare r q) eqn:Erq; try discriminate.
    + apply path_compare_eq in Erq; subst r. congruence.
    + rewrite (path_compare_antisym q p) in Eqp.
      rewrite (path_compare_antisym r q) in Erq.
      destruct (path_compare p q) eqn:Epq; try discriminate.
      destruct (path_compare q r) eqn:Eqr; try discriminate.
      pose proof (path_compare_trans _ _ _ Epq Eqr) as Hpr.
      rewrite (path_compare_antisym r p), Hpr in Erp. discriminate.
Qed.

Lemma insert_sorted_perm (p : Path) (l : list Path) :
  Permutation (insert_sorted p l) (p :: l).
Proof.
  induction l as [|q l IH]; simpl; auto.
  destruct (path_ltb q p); auto.
  rewrite IH. apply perm_swap.
Qed.

Lemma sorted_perm (l : list Path) : Permutation (sorted l) l.
Proof.
  induction l as [|p l IH]; simpl; auto.
  rewrite insert_sorted_perm. now constructor.
Qed.

Lemma insert_sorted_sorted (p : Path) (l : list Path) :
  StronglySorted path_le l -> StronglySorted path_le (insert_sorted p l).
Proof.
  induction 1 as [|q l Hl IH Hq]; simpl.
  - repeat constructor.
  - destruct (path_ltb q p) eqn:E.
    + constructor; auto.
      rewrite Forall_forall in *. intros x Hx.
      apply (Permutation_in _ (insert_sorted_perm p l)) in Hx.
      destruct Hx as [<-|Hx]; auto using path_le_of_lt.
    + constructor; [now constructor|].
      constructor; [exact E|].
      rewrite Forall_forall in *. intros x Hx.
      apply path_le_trans with q; auto.
Qed.

Lemma sorted_sorted (l : list Path) : StronglySorted path_le (sorted l).
Proof.
  induction l; simpl; [constructor | now apply insert_sorted_sorted].
Qed.

Lemma strongly_sorted_unique (l1 l2 : list Path) :
  StronglySorted path_le l1 -> StronglySorted path_le l2 ->
  Permutation l1 l2 -> l1 = l2.
Proof.
  intros H1; revert l2.
  induction H1 as [|a l1 Hl1 IH Ha]; intros l2 H2 HP.
  - now apply Permutation_nil in HP.
  - destruct H2 as [|b l2 Hl2 Hb].
    + symmetry in HP. now apply Permutation_nil in HP.
    + assert (a = b) as ->.
      { rewrite Forall_forall in Ha, Hb.
        assert (In a (b :: l2)) as [->|Hab]
            by (eapply Permutation_in; [exact HP | now left]); auto.
        assert (In b (a :: l1)) as [->|Hba]
            by (eapply Permutation_in; [symmetry; exact HP | now left]); auto.
        apply path_le_antisym; auto. }
      f_equal. apply IH; auto. now apply Permutation_cons_inv in HP.
Qed.

Lemma sorted_canonical (l1 l2 : list Path) :
  Permutation l1 l2 -> sorted l1 = sorted l2.
Proof.
  intros HP. apply strongly_sorted_unique; auto using sorted_sorted.
  rewrite !sorted_perm. exact HP.
Qed.

(** ** Loops and the program monad *)

Lemma for_each_ext {W S A : Type} (body1 body2 : S -> A -> Prog W S)
  (l : list A) :
  (forall s x w, body1 s x w = body2 s x w) ->
  forall s w, for_each body1 l s w = for_each body2 l s w.
Proof.
  intros Hext. induction l as [|x l IH]; intros s w; simpl; auto.
  unfold bind. rewrite Hext. destruct (body2 s x w) as [[s'|e] w']; auto.
Qed.

(** A property of the processed prefix, the loop variable and the world
    that every iteration preserves holds when the loop returns. *)
Lemma for_each_invariant {W S A : Type} (body : S -> A -> Prog W S)
  (P : list A -> S -> W -> Prop) (l : list A) :
  (forall pre x post s w s' w',
      l = pre ++ x :: post -> P pre s w -> body s x w = (Ok s', w') ->
      P (pre ++ [x]) s' w') ->
  forall s0 w0 s' w',
    P [] s0 w0 -> for_each body l s0 w0 = (Ok s', w') -> P l s' w'.
Proof.
  intros Hstep.
  assert (forall post pre s w s' w',
             l = pre ++ post -> P pre s w ->
             for_each body post s w = (Ok s', w') -> P l s' w') as Hgen.
  { induction post as [|x post IH]; intros pre s w s' w' Hl HP Hrun.
    - simpl in Hrun. unfold ret in Hrun. inversion Hrun; subst.
      now rewrite app_nil_r.
    - simpl in Hrun. unfold bind in Hrun.
      destruct (body s x w) as [[s1|e] w1] eqn:Hb; [|discriminate].
      apply (IH (pre ++ [x]) s1 w1); auto.
      + now rewrite <- app_assoc.
      + eapply Hstep; eauto. }
  intros s0 w0 s' w' H0 Hrun. exact (Hgen l [] s0 w0 s' w' eq_refl H0 Hrun).
Qed.

(** A loop whose iterations all return does return. *)
Lemma for_each_total {W S A : Type} (body : S -> A -> Prog W S) (l : list A) :
  (forall x s w, In x l -> exists s' w', body s x w = (Ok s', w')) ->
  forall s w, exists s' w', for_each body l s w = (Ok s', w').
Proof.
  induction l as [|x l IH]; intros Hstep s w; simpl.
  - now exists s, w.
  - destruct (Hstep x s w (or_introl eq_refl)) as (s1 & w1 & Hb).
    unfold bind. rewrite Hb. apply IH. intros; apply Hstep; now right.
Qed.

(** ** Determinism of the scanner *)

Lemma parse_audio_tags_eq (fs : FileSystem) (store : Store) (p : Path)
  (w : World (store_db store)) :
  parse_audio_tags fs store p w =
  (extracted fs p, mkWorld (w_db w) (w_events w ++ [ETinyTagGet p])).
Proof.
  unfold extracted, parse_audio_tags, try_except, TinyTag_get, bind, emit, lift, ret.
  simpl. destruct (fs_tinytag fs p) as [[t|]|[]]; reflexivity.
Qed.

Lemma scan_file_ext (fs fs' : FileSystem) (store : Store) (root : Path) :
  (forall p, fs_is_file fs p = fs_is_file fs' p) ->
  (forall p, fs_tinytag fs p = fs_tinytag fs' p) ->
  forall md p w, scan_file fs store root md p w = scan_file fs' store root md p w.
Proof.
  intros Hfile Htag md p w.
  assert (forall q, extracted fs q = extracted fs' q) as Hex.
  { intros q. unfold extracted, parse_audio_tags, try_except, TinyTag_get, bind,
      emit, lift, ret. simpl. now rewrite Htag. }
  unfold scan_file. rewrite Hfile.
  unfold bind, lift.
  destruct (fs_is_file fs' p) as [[|]|e0]; auto.
  destruct (relative_to (path_parent p) root) as [parent|e]; auto.
  destruct (dict_get _ md) as [info|];
    [destruct (ci_tags _); auto|]; now rewrite !parse_audio_tags_eq, Hex.
Qed.

(** The order in which the system enumerates the entries does not reach
    the scanner: [sorted] hands the loop the same list. *)
Lemma scan_clips_listing_order (fs fs' : FileSystem) (store : Store)
  (clips_path : Path) (w : World (store_db store)) :
  Permutation (fs_rglob fs clips_path) (fs_rglob fs' clips_path) ->
  (forall p, fs_is_file fs p = fs_is_file fs' p) ->
  (forall p, fs_tinytag fs p = fs_tinytag fs' p) ->
  scan_clips fs store clips_path w = scan_clips fs' store clips_path w.
Proof.
  intros Hperm Hfile Htag.
  unfold scan_clips, rglob, bind, emit, ret.
  rewrite (sorted_canonical Hperm).
  apply for_each_ext. now apply scan_file_ext.
Qed.

(** What an iteration returns does not depend on the world it runs in. *)
Lemma scan_file_result_world (fs : FileSystem) (store : Store) (root : Path)
  (md : dict clip_info) (p : Path) (w1 w2 : World (store_db store)) :
  fst (scan_file fs store root md p w1) = fst (scan_file fs store root md p w2).
Proof.
  unfold scan_file. unfold bind, lift.
  destruct (fs_is_file fs p) as [[|]|e0]; auto.
  destruct (relative_to (path_parent p) root) as [parent|e]; auto.
  destruct (dict_get _ md) as [info|];
    [destruct (ci_tags _); auto|];
    rewrite !parse_audio_tags_eq; now destruct (extracted fs p).
Qed.

Lemma scan_loop_result_world (fs : FileSystem) (store : Store) (root : Path)
  (l : list Path) :
  forall md (w1 w2 : World (store_db store)),
    fst (for_each (scan_file fs store root) l md w1) =
    fst (for_each (scan_file fs store root) l md w2).
Proof.
  induction l as [|p l IH]; intros md w1 w2; simpl; auto.
  unfold bind. pose proof (scan_file_result_world fs store root md p w1 w2) as H.
  destruct (scan_file fs store root md p w1) as [[md1|e1] w1'],
           (scan_file fs store root md p w2) as [[md2|e2] w2'];
    simpl in *; try congruence.
  injection H as <-. apply IH.
Qed.

(** C6.  Two scans of one unmodified tree return identical mappings: same
    keys in the same order, same suffixes, same tags.  The two runs may
    start in different worlds (the second after the first) and the system
    may enumerate the entries in another order the second time; as long as
    the entries are the same, the same ones are regular files and the tag
    decoder answers alike, what [scan_clips] returns is the same. *)
Theorem scan_clips_deterministic (fs fs' : FileSystem) (store : Store)
  (clips_path : Path) (w1 w2 : World (store_db store)) :
  Permutation (fs_rglob fs clips_path) (fs_rglob fs' clips_path) ->
  (forall p, fs_is_file fs p = fs_is_file fs' p) ->
  (forall p, fs_tinytag fs p = fs_tinytag fs' p) ->
  fst (scan_clips fs store clips_path w1) =
  fst (scan_clips fs' store clips_path w2).
Proof.
  intros Hperm Hfile Htag.
  rewrite <- (@scan_clips_listing_order fs fs' store clips_path w2 Hperm Hfile Htag).
  unfold scan_clips, rglob, bind, emit, ret.
  apply scan_loop_result_world.
Qed.

Lemma scan_clips_deterministic_witness :
  fst (scan_clips sample_fs table_store sample_root (mkWorld empty_db [])) =
  fst (scan_clips sample_fs_reordered table_store sample_root
         (snd (scan_clips sample_fs table_store sample_root
                 (mkWorld empty_db [])))).
Proof.
  apply scan_clips_deterministic.
  - simpl. apply perm_trans with [track_mp3; track_m4a; ["clips"; "songs"]].
    + apply perm_skip, perm_swap.
    + apply perm_swap.
  - reflexivity.
  - reflexivity.
Defined.

(** ** Dictionaries *)

Section DictFacts.
Variable V : Type.
Implicit Types (d : dict V) (k : string) (v : V).

Lemma dict_get_set_same k v d : dict_get k (dict_set k v d) = Some v.
Proof.
  induction d as [|[k' v'] d IH]; simpl.
  - now rewrite String.eqb_refl.
  - destruct (String.eqb k k') eqn:E; simpl; rewrite E; auto.
Qed.

Lemma dict_get_set_other k k' v d :
  k <> k' -> dict_get k' (dict_set k v d) = dict_get k' d.
Proof.
  intros Hne. induction d as [|[k0 v0] d IH]; simpl.
  - apply not_eq_sym, String.eqb_neq in Hne. now rewrite Hne.
  - destruct (String.eqb k k0) eqn:E; simpl.
    + apply String.eqb_eq in E; subst k0.
      apply not_eq_sym, String.eqb_neq in Hne. now rewrite Hne.
    + now rewrite IH.
Qed.

Lemma dict_get_None k d : dict_get k d = None <-> ~ In k (dict_keys d).
Proof.
  induction d as [|[k' v'] d IH]; simpl.
  - tauto.
  - destruct (String.eqb k k') eqn:E.
    + apply String.eqb_eq in E; subst. split; [discriminate | tauto].
    + apply String.eqb_neq in E. rewrite IH. intuition congruence.
Qed.

Lemma dict_keys_set_new k v d :
  dict_get k d = None -> dict_keys (dict_set k v d) = dict_keys d ++ [k].
Proof.
  induction d as [|[k' v'] d IH]; simpl; auto.
  destruct (String.eqb k k'); [discriminate|].
  intros H. simpl. now rewrite IH.
Qed.

Lemma dict_keys_set_old k v v0 d :
  dict_get k d = Some v0 -> dict_keys (dict_set k v d) = dict_keys d.
Proof.
  induction d as [|[k' v'] d IH]; simpl; [discriminate|].
  destruct (String.eqb k k'); simpl; auto.
  intros H. now rewrite IH.
Qed.

Lemma dict_get_In k v d : dict_get k d = Some v -> In (k, v) d.
Proof.
  induction d as [|[k' v'] d IH]; simpl; [discriminate|].
  destruct (String.eqb k k') eqn:E.
  - apply String.eqb_eq in E; subst. intros [= ->]. now left.
  - auto.
Qed.

Lemma In_dict_get k v d :
  NoDup (dict_keys d) -> In (k, v) d -> dict_get k d = Some v.
Proof.
  induction d as [|[k' v'] d IH]; simpl; [tauto|].
  intros Hnd [[= -> ->]|Hin].
  - now rewrite String.eqb_refl.
  - inversion Hnd as [|? ? Hnotin Hnd']; subst.
    destruct (String.eqb k k') eqn:E; auto.
    apply String.eqb_eq in E; subst. exfalso. apply Hnotin.
    change k' with (fst (k', v)). now apply in_map.
Qed.

Lemma In_dict_keys k d : In k (dict_keys d) -> exists v, dict_get k d = Some v.
Proof.
  intros Hin. destruct (dict_get k d) as [v|] eqn:E; eauto.
  now apply dict_get_None in E.
Qed.

End DictFacts.

(** ** Names, stems and suffixes *)

Lemma substring_all (s : string) : substring 0 (String.length s) s = s.
Proof. induction s; simpl; congruence. Qed.

Lemma substring_split (s : string) (i : nat) :
  i <= String.length s ->
  (substring 0 i s ++ substring i (String.length s - i) s)%string = s.
Proof.
  revert i; induction s as [|c s IH]; intros [|i] Hle; simpl in *; auto; try lia.
  - now rewrite substring_all.
  - f_equal. apply IH. lia.
Qed.

Lemma rfind_bound (c : ascii) (s : string) (i : nat) :
  rfind c s = Some i -> i < String.length s.
Proof.
  revert i; induction s as [|a s IH]; simpl; [discriminate|].
  intros i. destruct (rfind c s) as [j|].
  - intros [= <-]. specialize (IH j eq_refl). lia.
  - destruct (Ascii.eqb a c); [intros [= <-]; lia | discriminate].
Qed.

Lemma append_empty_r (s : string) : (s ++ "")%string = s.
Proof. induction s; simpl; congruence. Qed.

(** pathlib splits a name without losing a character. *)
Lemma name_split (name : string) :
  (name_stem name ++ name_suffix name)%string = name.
Proof.
  unfold name_stem, name_suffix, split_index.
  destruct (rfind "."%char name) as [i|] eqn:E.
  - destruct (Nat.ltb 0 i && Nat.ltb i (String.length name - 1))%bool.
    + apply substring_split. apply rfind_bound in E. lia.
    + now rewrite append_empty_r.
  - now rewrite append_empty_r.
Qed.

Lemma sep_free_append (a b : string) :
  sep_free (a ++ b) = (sep_free a && sep_free b)%bool.
Proof.
  unfold sep_free. induction a as [|c a IH]; simpl; auto.
  rewrite IH. now rewrite andb_assoc.
Qed.

Lemma sep_free_stem (name : string) :
  sep_free name = true -> sep_free (name_stem name) = true.
Proof.
  intros H. rewrite <- (name_split name), sep_free_append in H.
  now apply andb_prop in H.
Qed.

Lemma sep_free_prefix_inj (a b r1 r2 : string) :
  sep_free a = true -> sep_free b = true -> sep_headed r1 -> sep_headed r2 ->
  (a ++ r1)%string = (b ++ r2)%string -> a = b /\ r1 = r2.
Proof.
  revert b; induction a as [|c a IH]; intros [|c' b] Ha Hb H1 H2 Heq; simpl in *.
  - auto.
  - exfalso. destruct H1 as [->|[r' ->]]; [discriminate|].
    injection Heq as <- _. unfold sep_free in Hb. simpl in Hb. discriminate.
  - exfalso. destruct H2 as [->|[r' ->]]; [discriminate|].
    injection Heq as -> _. unfold sep_free in Ha. simpl in Ha. discriminate.
  - injection Heq as <- Heq.
    unfold sep_free in Ha, Hb. simpl in Ha, Hb.
    apply andb_prop in Ha, Hb.
    destruct (IH b) as [-> ->]; auto; tauto.
Qed.

Lemma concat_sep_inj (l1 l2 : list string) :
  l1 <> [] -> l2 <> [] ->
  forallb sep_free l1 = true -> forallb sep_free l2 = true ->
  String.concat "/" l1 = String.concat "/" l2 -> l1 = l2.
Proof.
  revert l2; induction l1 as [|a l1 IH]; intros [|b l2] N1 N2 F1 F2 Heq;
    try congruence.
  simpl in F1, F2. apply andb_prop in F1, F2. destruct F1 as [Fa F1], F2 as [Fb F2].
  assert (forall x l, String.concat "/" (x :: l) =
                      (x ++ match l with [] => "" | _ => String "/"%char (String.concat "/" l) end)%string)
    as Hc.
  { intros x [|y l]; simpl; auto. now rewrite append_empty_r. }
  rewrite !Hc in Heq.
  apply sep_free_prefix_inj in Heq; auto.
  - destruct Heq as [-> Hr]. f_equal.
    destruct l1 as [|a1 l1], l2 as [|b1 l2]; try discriminate; auto.
    injection Hr as Hr. apply IH; auto; discriminate.
  - destruct l1; [now left | right; eauto].
  - destruct l2; [now left | right; eauto].
Qed.

(** ** Paths below the root *)

Lemma relative_to_app (root rel : Path) : relative_to (root ++ rel) root = Ok rel.
Proof.
  induction root as [|o root IH]; simpl; auto. now rewrite String.eqb_refl.
Qed.

Lemma relative_to_inv (root p rel : Path) :
  relative_to p root = Ok rel -> p = root ++ rel.
Proof.
  revert p; induction root as [|o root IH]; intros p; simpl.
  - now intros [= ->].
  - destruct p as [|c p]; [discriminate|].
    destruct (String.eqb o c) eqn:E; [|discriminate].
    apply String.eqb_eq in E; subst c. intros H. f_equal. now apply IH.
Qed.

Lemma file_names_sep_free (l : list string) :
  forallb file_name l = true -> forallb sep_free l = true.
Proof.
  induction l as [|a l IH]; simpl; auto.
  unfold file_name at 1. intros H.
  apply andb_prop in H as [Ha Hl]. apply andb_prop in Ha as [_ ->]. auto.
Qed.

Lemma under_root_inv (root p : Path) :
  under_root root p = true ->
  exists rel,
    p = root ++ rel /\ rel <> [] /\ forallb sep_free rel = true /\
    last rel "" <> "".
Proof.
  unfold under_root.
  destruct (relative_to p root) as [[|c rel]|e] eqn:E; try discriminate.
  intros H. apply relative_to_inv in E. exists (c :: rel).
  split; [exact E|]. split; [discriminate|].
  split; [now apply file_names_sep_free|].
  assert (file_name (last (c :: rel) "") = true) as Hlast.
  { clear E. revert c H. induction rel as [|b rel IH]; intros c H.
    - simpl in *. now apply andb_prop in H.
    - apply andb_prop in H as [_ H]. exact (IH b H). }
  intros E'. rewrite E' in Hlast. discriminate.
Qed.

Lemma last_app_nonempty (A : Type) (l l' : list A) (d : A) :
  l' <> [] -> last (l ++ l') d = last l' d.
Proof.
  intros Hne. induction l as [|a l IH]; simpl; auto.
  rewrite IH. destruct (l ++ l') eqn:E; auto.
  apply app_eq_nil in E. tauto.
Qed.

Lemma forallb_removelast (A : Type) (f : A -> bool) (l : list A) :
  forallb f l = true -> forallb f (removelast l) = true.
Proof.
  induction l as [|a [|b l] IH]; simpl in *; auto.
  intros H. apply andb_prop in H as [-> H]. now apply IH.
Qed.

Lemma forallb_last (A : Type) (f : A -> bool) (l : list A) (d : A) :
  l <> [] -> forallb f l = true -> f (last l d) = true.
Proof.
  induction l as [|a [|b l] IH]; simpl in *; try congruence.
  - intros _ H. now apply andb_prop in H.
  - intros _ H. apply andb_prop in H as [_ H]. apply IH; [discriminate | auto].
Qed.

Lemma name_stem_nonempty (name : string) : name <> "" -> name_stem name <> "".
Proof.
  unfold name_stem, split_index. intros Hne.
  destruct (rfind "."%char name) as [i|]; auto.
  destruct (Nat.ltb 0 i) eqn:Hi; simpl; auto.
  destruct (Nat.ltb i (String.length name - 1)); auto.
  apply Nat.ltb_lt in Hi. destruct i as [|i]; [lia|].
  destruct name; [congruence | discriminate].
Qed.

Lemma joinpath_kept (p : Path) (s : string) :
  s <> "" -> s <> "." -> joinpath p s = p ++ [s].
Proof.
  intros H1 H2. unfold joinpath.
  apply String.eqb_neq in H1, H2. now rewrite H1, H2.
Qed.

(** The key of an entry below the root, spelled out. *)
Lemma clip_key_under_root (root rel : Path) :
  rel <> [] -> last rel "" <> "" -> name_stem (last rel "") <> "." ->
  clip_key root (root ++ rel) =
  Ok (String.concat "/" (removelast rel ++ [name_stem (last rel "")])).
Proof.
  intros Hne Hname Hdot. unfold clip_key, path_parent, path_stem, path_name.
  rewrite removelast_app by assumption.
  rewrite relative_to_app, last_app_nonempty by assumption.
  rewrite joinpath_kept by auto using name_stem_nonempty.
  unfold path_str.
  destruct (removelast rel ++ [name_stem (last rel "")]) eqn:E; auto.
  now apply app_eq_nil in E.
Qed.

Lemma parent_under_root (root p : Path) :
  under_root root p = true ->
  exists parent, relative_to (path_parent p) root = Ok parent.
Proof.
  intros H. apply under_root_inv in H as (rel & -> & Hne & _).
  unfold path_parent. rewrite removelast_app by assumption.
  rewrite relative_to_app. eauto.
Qed.

Lemma clip_key_total (root p : Path) :
  under_root root p = true -> exists k, clip_key root p = Ok k.
Proof.
  intros H. apply parent_under_root in H as (parent & Hrel).
  unfold clip_key. rewrite Hrel. eauto.
Qed.

Lemma dot_stem_false (root rel : Path) :
  rel <> [] -> dot_stem (root ++ rel) = false ->
  name_stem (last rel "") <> ".".
Proof.
  unfold dot_stem, path_stem, path_name. intros Hne.
  rewrite last_app_nonempty by assumption. apply String.eqb_neq.
Qed.

(** Two entries below the root whose stems are not a single dot bear the
    same key only if they lie in the same directory and have the same
    stem. *)
Lemma clip_key_inj (root p q : Path) :
  under_root root p = true -> under_root root q = true ->
  dot_stem p = false -> dot_stem q = false ->
  clip_key root p = clip_key root q ->
  path_parent p = path_parent q /\ path_stem p = path_stem q.
Proof.
  intros Hp Hq Dp Dq.
  apply under_root_inv in Hp as (rel & -> & Np & Fp & Lp).
  apply under_root_inv in Hq as (rel' & -> & Nq & Fq & Lq).
  apply dot_stem_false in Dp, Dq; auto.
  rewrite !clip_key_under_root by assumption. intros [= Heq].
  apply concat_sep_inj in Heq.
  - apply app_inj_tail in Heq as [Hpar Hstem].
    unfold path_parent, path_stem, path_name.
    rewrite !removelast_app, !last_app_nonempty by assumption.
    now rewrite Hpar, Hstem.
  - intros E; now apply app_eq_nil in E.
  - intros E; now apply app_eq_nil in E.
  - rewrite forallb_app, forallb_removelast by exact Fp. simpl.
    rewrite sep_free_stem; auto. now apply forallb_last.
  - rewrite forallb_app, forallb_removelast by exact Fq. simpl.
    rewrite sep_free_stem; auto. now apply forallb_last.
Qed.

Lemma clip_key_of_parent_stem (root p q : Path) :
  path_parent p = path_parent q -> path_stem p = path_stem q ->
  clip_key root p = clip_key root q.
Proof. unfold clip_key. now intros -> ->. Qed.

(** An entry below the root is its directory followed by stem and suffix. *)
Lemma path_rebuild (root p : Path) :
  under_root root p = true ->
  p = path_parent p ++ [(path_stem p ++ path_suffix p)%string].
Proof.
  intros H. apply under_root_inv in H as (rel & -> & Hne & _).
  unfold path_stem, path_suffix, path_parent, path_name.
  rewrite name_split. apply app_removelast_last.
  intros E; now apply app_eq_nil in E.
Qed.

Lemma has_key_true (root : Path) (k : string) (p : Path) :
  has_key root k p = true <-> clip_key root p = Ok k.
Proof.
  unfold has_key. destruct (clip_key root p) as [k'|e].
  - rewrite String.eqb_eq. split; congruence.
  - split; discriminate.
Qed.

(** ** One iteration of the scanner *)

Lemma world_eta (D : Type) (w : World D) :
  w = mkWorld (w_db w) (w_events w ++ []).
Proof. destruct w; simpl. now rewrite app_nil_r. Qed.

Lemma scan_file_step (fs : FileSystem) (store : Store) (root : Path)
  (md : dict clip_info) (p : Path) (w : World (store_db store))
  (md' : dict clip_info) (w' : World (store_db store)) :
  scan_file fs store root md p w = (Ok md', w') ->
  exists evs, scan_step fs root md p md' evs /\
              w' = mkWorld (w_db w) (w_events w ++ evs).
Proof.
  unfold scan_file. unfold bind, lift.
  destruct (fs_is_file fs p) as [[|]|e0] eqn:Hfile; [| |discriminate].
  - destruct (relative_to (path_parent p) root) as [parent|e] eqn:Hrel;
      [|discriminate].
    destruct (dict_get _ md) as [info|] eqn:Hget.
    + destruct (ci_tags (append_suffix info (path_suffix p))) as [t|] eqn:Htags.
      * unfold ret. intros [= <- <-]. exists []. split; [|apply world_eta].
        eapply step_variant; eauto.
      * rewrite parse_audio_tags_eq.
        destruct (extracted fs p) as [t|e] eqn:Hex; [|discriminate].
        unfold ret. intros [= <- <-]. eexists. split; [|reflexivity].
        eapply step_retry; eauto.
    + rewrite parse_audio_tags_eq.
      destruct (extracted fs p) as [t|e] eqn:Hex; [|discriminate].
      unfold ret. intros [= <- <-]. eexists. split; [|reflexivity].
      eapply step_new; eauto.
  - unfold ret. intros [= <- <-]. exists []. split; [|apply world_eta].
    now apply step_skip.
Qed.

(** ** Invariants of the loop of [scan_clips] *)

Lemma regular_snoc (fs : FileSystem) (seen : list Path) (p : Path) :
  regular fs (seen ++ [p]) =
  regular fs seen ++ (if is_regular fs p then [p] else []).
Proof. unfold regular. rewrite filter_app. simpl. now destruct (is_regular fs p). Qed.

Lemma is_regular_true (fs : FileSystem) (p : Path) :
  fs_is_file fs p = Ok true -> is_regular fs p = true.
Proof. unfold is_regular. now intros ->. Qed.

Lemma is_regular_false (fs : FileSystem) (p : Path) :
  fs_is_file fs p = Ok false -> is_regular fs p = false.
Proof. unfold is_regular. now intros ->. Qed.

(** Turns what [is_file()] answered into membership of [regular]. *)
Ltac regular_flag H :=
  first [apply is_regular_true in H | apply is_regular_false in H].

Lemma find_app (A : Type) (f : A -> bool) (l l' : list A) :
  find f (l ++ l') =
  match find f l with Some x => Some x | None => find f l' end.
Proof. induction l as [|a l IH]; simpl; auto. now destruct (f a). Qed.

Lemma find_none_filter (A : Type) (f : A -> bool) (l : list A) :
  find f l = None -> filter f l = [].
Proof.
  induction l as [|a l IH]; simpl; auto. destruct (f a); [discriminate | auto].
Qed.

Lemma has_key_step (root parent p : Path) (k : string) :
  relative_to (path_parent p) root = Ok parent ->
  has_key root k p = String.eqb (path_str (joinpath parent (path_stem p))) k.
Proof. unfold has_key, clip_key. now intros ->. Qed.

Lemma eqb_neq_false (k k' : string) : k <> k' -> String.eqb k k' = false.
Proof. apply String.eqb_neq. Qed.

Section ScanInvariants.
Variable fs : FileSystem.
Variable root : Path.

Lemma step_complete (md md' : dict clip_info) (p : Path) (evs : list Event) :
  scan_step fs root md p md' evs -> records_complete md -> records_complete md'.
Proof.
  intros Hstep [Hnd Hrec].
  destruct Hstep as [Hf | parent key t Hf Hrel -> Hget Hex
                     | parent key info t Hf Hrel -> Hget Htags
                     | parent key info t Hf Hrel -> Hget Htags Hex];
    regular_flag Hf.
  - now split.
  - split.
    + rewrite dict_keys_set_new by assumption.
      apply NoDup_app; repeat split; auto.
      * repeat constructor. intros [].
      * intros k Hk [<-|[]]. now apply dict_get_None in Hget.
    + intros k info.
      destruct (string_dec (path_str (joinpath parent (path_stem p))) k) as [<-|Hne].
      * rewrite dict_get_set_same. intros [= <-]. simpl.
        repeat split; discriminate.
      * rewrite dict_get_set_other by assumption. apply Hrec.
  - split.
    + now rewrite (dict_keys_set_old _ _ _ Hget).
    + intros k info'.
      destruct (string_dec (path_str (joinpath parent (path_stem p))) k) as [<-|Hne].
      * rewrite dict_get_set_same. intros [= <-]. simpl.
        destruct (Hrec _ _ Hget) as (Hk & _ & Ht).
        repeat split; auto. intros E. now apply app_eq_nil in E.
      * rewrite dict_get_set_other by assumption. apply Hrec.
  - split.
    + now rewrite (dict_keys_set_old _ _ _ Hget).
    + intros k info'.
      destruct (string_dec (path_str (joinpath parent (path_stem p))) k) as [<-|Hne].
      * rewrite dict_get_set_same. intros [= <-]. simpl.
        destruct (Hrec _ _ Hget) as (Hk & _ & Ht).
        repeat split; auto; try discriminate.
      * rewrite dict_get_set_other by assumption. apply Hrec.
Qed.

Lemma step_cover (md md' : dict clip_info) (seen : list Path) (p : Path)
  (evs : list Event) :
  scan_step fs root md p md' evs ->
  records_cover fs root seen md -> records_cover fs root (seen ++ [p]) md'.
Proof.
  intros Hstep Hcov k. specialize (Hcov k). rewrite regular_snoc.
  destruct Hstep as [Hf | parent key t Hf Hrel -> Hget Hex
                     | parent key info t Hf Hrel -> Hget Htags
                     | parent key info t Hf Hrel -> Hget Htags Hex];
    regular_flag Hf; rewrite Hf.
  - now rewrite app_nil_r.
  - rewrite filter_app, find_app. simpl. rewrite (has_key_step root p k Hrel).
    destruct (string_dec (path_str (joinpath parent (path_stem p))) k) as [<-|Hne].
    + rewrite dict_get_set_same. rewrite Hget in Hcov. simpl.
      rewrite (find_none_filter _ _ Hcov), String.eqb_refl. reflexivity.
    + rewrite dict_get_set_other, (eqb_neq_false Hne) by assumption.
      rewrite app_nil_r. destruct (dict_get k md); auto. now rewrite Hcov.
  - rewrite filter_app, find_app. simpl. rewrite (has_key_step root p k Hrel).
    destruct (string_dec (path_str (joinpath parent (path_stem p))) k) as [<-|Hne].
    + rewrite dict_get_set_same. rewrite Hget in Hcov. simpl.
      rewrite String.eqb_refl, map_app, Hcov. reflexivity.
    + rewrite dict_get_set_other, (eqb_neq_false Hne) by assumption.
      rewrite app_nil_r. destruct (dict_get k md); auto. now rewrite Hcov.
  - rewrite filter_app, find_app. simpl. rewrite (has_key_step root p k Hrel).
    destruct (string_dec (path_str (joinpath parent (path_stem p))) k) as [<-|Hne].
    + rewrite dict_get_set_same. rewrite Hget in Hcov. simpl.
      rewrite String.eqb_refl, map_app, Hcov. reflexivity.
    + rewrite dict_get_set_other, (eqb_neq_false Hne) by assumption.
      rewrite app_nil_r. destruct (dict_get k md); auto. now rewrite Hcov.
Qed.

Lemma step_first (md md' : dict clip_info) (seen : list Path) (p : Path)
  (evs : list Event) :
  scan_step fs root md p md' evs ->
  records_complete md -> records_cover fs root seen md ->
  records_from_first fs root seen md ->
  records_from_first fs root (seen ++ [p]) md'.
Proof.
  intros Hstep [_ Hrec] Hcov Hfirst k info'. rewrite regular_snoc, find_app.
  destruct Hstep as [Hf | parent key t Hf Hrel -> Hget Hex
                     | parent key info t Hf Hrel -> Hget Htags
                     | parent key info t Hf Hrel -> Hget Htags Hex];
    regular_flag Hf.
  - intros Hk. destruct (Hfirst _ _ Hk) as (q & tq & -> & H). eauto.
  - destruct (string_dec (path_str (joinpath parent (path_stem p))) k) as [<-|Hne].
    + rewrite dict_get_set_same. intros [= <-].
      specialize (Hcov (path_str (joinpath parent (path_stem p)))).
      rewrite Hget in Hcov. rewrite Hcov, Hf. simpl.
      rewrite (has_key_step root p _ Hrel), String.eqb_refl. exists p, t. auto.
    + rewrite dict_get_set_other by assumption. intros Hk.
      destruct (Hfirst _ _ Hk) as (q & tq & -> & H). eauto.
  - destruct (string_dec (path_str (joinpath parent (path_stem p))) k) as [<-|Hne].
    + rewrite dict_get_set_same. intros [= <-].
      destruct (Hfirst _ _ Hget) as (q & tq & -> & H). simpl. eauto.
    + rewrite dict_get_set_other by assumption. intros Hk.
      destruct (Hfirst _ _ Hk) as (q & tq & -> & H). eauto.
  - exfalso. destruct (Hrec _ _ Hget) as (_ & _ & Ht). contradiction.
Qed.

Lemma tinytag_calls_app (evs evs' : list Event) :
  tinytag_calls (evs ++ evs') = tinytag_calls evs ++ tinytag_calls evs'.
Proof.
  induction evs as [|e evs IH]; simpl; auto. destruct e; simpl; congruence.
Qed.

Lemma step_calls (md md' : dict clip_info) (seen : list Path) (p : Path)
  (evs0 evs : list Event) :
  scan_step fs root md p md' evs ->
  records_complete md -> records_cover fs root seen md ->
  one_call_per_key fs root seen md evs0 ->
  one_call_per_key fs root (seen ++ [p]) md' (evs0 ++ evs).
Proof.
  unfold one_call_per_key. intros Hstep [_ Hrec] Hcov Hcalls.
  rewrite tinytag_calls_app, regular_snoc.
  assert (Forall2
            (fun q k =>
               find (has_key root k)
                 (regular fs seen ++ (if is_regular fs p then [p] else [])) =
               Some q)
            (tinytag_calls evs0) (dict_keys md)) as Hkept.
  { eapply Forall2_impl; [|exact Hcalls].
    intros q k Hq. simpl in Hq. rewrite find_app. now rewrite Hq. }
  destruct Hstep as [Hf | parent key t Hf Hrel -> Hget Hex
                     | parent key info t Hf Hrel -> Hget Htags
                     | parent key info t Hf Hrel -> Hget Htags Hex];
    regular_flag Hf; simpl.
  - now rewrite app_nil_r.
  - rewrite dict_keys_set_new by assumption.
    apply Forall2_app; auto. constructor; auto.
    specialize (Hcov (path_str (joinpath parent (path_stem p)))).
    rewrite Hget in Hcov. rewrite find_app, Hcov, Hf. simpl.
    now rewrite (has_key_step root p _ Hrel), String.eqb_refl.
  - now rewrite app_nil_r, (dict_keys_set_old _ _ _ Hget).
  - exfalso. destruct (Hrec _ _ Hget) as (_ & _ & Ht). contradiction.
Qed.

(** The four invariants hold when the loop returns, whatever list of
    entries it ran over and whatever world it started in. *)
Lemma scan_loop_invariant (store : Store) (l : list Path)
  (w0 : World (store_db store)) (md : dict clip_info)
  (w : World (store_db store)) :
  for_each (scan_file fs store root) l [] w0 = (Ok md, w) ->
  exists evs,
    w = mkWorld (w_db w0) (w_events w0 ++ evs) /\
    records_complete md /\
    records_cover fs root l md /\
    records_from_first fs root l md /\
    one_call_per_key fs root l md evs.
Proof.
  apply (for_each_invariant (scan_file fs store root)
           (fun seen md w =>
              exists evs,
                w = mkWorld (w_db w0) (w_events w0 ++ evs) /\
                records_complete md /\
                records_cover fs root seen md /\
                records_from_first fs root seen md /\
                one_call_per_key fs root seen md evs)).
  - intros pre x post s w1 s' w' _ (evs & -> & HA & HB & HC & HD) Hrun.
    apply scan_file_step in Hrun as (evs' & Hstep & ->). simpl.
    exists (evs ++ evs'). rewrite app_assoc.
    split; [reflexivity|].
    split; [eapply step_complete; eauto|].
    split; [eapply step_cover; eauto|].
    split; [eapply step_first; eauto | eapply step_calls; eauto].
  - exists []. split; [apply world_eta|].
    split; [split; [constructor | discriminate]|].
    split; [intros k; reflexivity|].
    split; [discriminate | constructor].
Qed.

End ScanInvariants.

(** ** The scanner as a whole *)

Lemma scan_clips_unfold (fs : FileSystem) (store : Store) (root : Path)
  (w : World (store_db store)) :
  scan_clips fs store root w =
  for_each (scan_file fs store root) (sorted (fs_rglob fs root)) []
    (mkWorld (w_db w) (w_events w ++ [ERglob root])).
Proof. reflexivity. Qed.

Lemma scan_clips_invariant (fs : FileSystem) (store : Store) (root : Path)
  (w : World (store_db store)) (m : dict clip_info)
  (w' : World (store_db store)) :
  scan_clips fs store root w = (Ok m, w') ->
  exists evs,
    w' = mkWorld (w_db w) (w_events w ++ ERglob root :: evs) /\
    records_complete m /\
    records_cover fs root (sorted (fs_rglob fs root)) m /\
    records_from_first fs root (sorted (fs_rglob fs root)) m /\
    one_call_per_key fs root (sorted (fs_rglob fs root)) m evs.
Proof.
  rewrite scan_clips_unfold. intros Hrun.
  apply scan_loop_invariant in Hrun as (evs & -> & H).
  exists evs. split; auto. simpl. now rewrite <- app_assoc.
Qed.

Lemma regular_sorted_In (fs : FileSystem) (l : list Path) (p : Path) :
  In p (regular fs (sorted l)) <-> In p (regular fs l).
Proof.
  unfold regular. rewrite !filter_In.
  split; intros [Hin Hf]; split; auto.
  - eapply Permutation_in; [apply sorted_perm | exact Hin].
  - eapply Permutation_in; [symmetry; apply sorted_perm | exact Hin].
Qed.

Lemma well_formed_In (root : Path) (l : list Path) (p : Path) :
  well_formed_listing root l -> In p l -> under_root root p = true.
Proof. unfold well_formed_listing. rewrite forallb_forall. auto. Qed.

Lemma regular_In (fs : FileSystem) (l : list Path) (p : Path) :
  In p (regular fs l) <-> In p l /\ is_regular fs p = true.
Proof. apply filter_In. Qed.

Lemma NoDup_map_inj_in (A B : Type) (f : A -> B) (l : list A) :
  (forall x y, In x l -> In y l -> f x = f y -> x = y) ->
  NoDup l -> NoDup (map f l).
Proof.
  intros Hinj Hnd. induction Hnd as [|a l Hnotin Hnd IH]; simpl; constructor.
  - intros Hin. apply in_map_iff in Hin as (b & Hfb & Hb).
    apply Hnotin. rewrite <- (Hinj b a); simpl; auto.
  - apply IH. intros x y Hx Hy. apply Hinj; now right.
Qed.

(** The keys of the mapping are the keys of the regular files seen. *)
Lemma scan_keys_iff (fs : FileSystem) (root : Path) (l : list Path)
  (m : dict clip_info) (k : string) :
  records_cover fs root l m -> records_from_first fs root l m ->
  In k (dict_keys m) <->
  exists p, In p (regular fs l) /\ clip_key root p = Ok k.
Proof.
  intros Hcov Hfirst. split.
  - intros Hin. apply In_dict_keys in Hin as (info & Hget).
    destruct (Hfirst _ _ Hget) as (p & t & Hfind & _).
    apply find_some in Hfind as [Hin Hk]. exists p. split; auto.
    now apply has_key_true.
  - intros (p & Hin & Hk). specialize (Hcov k).
    destruct (dict_get k m) as [info|] eqn:Hget.
    + apply dict_get_In in Hget.
      change k with (fst (k, info)). now apply in_map.
    + exfalso. apply (find_none _ _ Hcov) in Hin.
      apply has_key_true in Hk. congruence.
Qed.

Lemma no_dot_stems_In (fs : FileSystem) (l : list Path) (p : Path) :
  no_dot_stems fs l -> In p (regular fs l) -> dot_stem p = false.
Proof.
  unfold no_dot_stems, regular. rewrite forallb_forall. intros H Hin.
  apply H in Hin. now destruct (dot_stem p).
Qed.

(** C3, as the code has it.  On a tree none of whose regular files has a
    single dot for stem, the keys of the mapping stand in bijection with
    the pairs of directory and stem of the regular files under the root:
    the mapping has no key twice, its keys are exactly the keys of the
    regular files, two regular files bear the same key exactly when they
    lie in the same directory and have the same stem, and there are as
    many keys as distinct pairs. *)
Theorem scan_keys_bijection (fs : FileSystem) (store : Store) (root : Path)
  (w : World (store_db store)) (m : dict clip_info)
  (w' : World (store_db store)) :
  well_formed_listing root (fs_rglob fs root) ->
  no_dot_stems fs (fs_rglob fs root) ->
  scan_clips fs store root w = (Ok m, w') ->
  NoDup (dict_keys m) /\
  (forall k, In k (dict_keys m) <->
             exists p, In p (regular fs (fs_rglob fs root)) /\
                       clip_key root p = Ok k) /\
  (forall p q,
      In p (regular fs (fs_rglob fs root)) ->
      In q (regular fs (fs_rglob fs root)) ->
      (clip_key root p = clip_key root q <->
       path_parent p = path_parent q /\ path_stem p = path_stem q)) /\
  List.length (dict_keys m) =
  List.length (nodup parent_stem_dec
                 (map parent_stem (regular fs (fs_rglob fs root)))).
Proof.
  intros Hwf Hdots Hrun.
  apply scan_clips_invariant in Hrun as (evs & _ & [Hnd _] & Hcov & Hfirst & _).
  assert (forall k, In k (dict_keys m) <->
                    exists p, In p (regular fs (fs_rglob fs root)) /\
                              clip_key root p = Ok k) as Hkeys.
  { intros k. rewrite (scan_keys_iff k Hcov Hfirst).
    split; intros (p & Hin & Hk); exists p; split; auto;
      now apply regular_sorted_In. }
  assert (forall p, In p (regular fs (fs_rglob fs root)) ->
                    under_root root p = true) as Hunder.
  { intros p Hin. apply regular_In in Hin as [Hin _].
    eapply well_formed_In; eauto. }
  assert (forall p, In p (regular fs (fs_rglob fs root)) ->
                    dot_stem p = false) as Hdot
      by (intros p; now apply no_dot_stems_In).
  assert (forall p, In p (regular fs (fs_rglob fs root)) ->
                    clip_key root p = Ok (key_of_pair root (parent_stem p)))
    as Hpair.
  { intros p Hin. destruct (clip_key_total _ _ (Hunder p Hin)) as (k & Hk).
    unfold clip_key, key_of_pair, parent_stem in *. simpl.
    destruct (relative_to (path_parent p) root); congruence. }
  split; [exact Hnd|]. split; [exact Hkeys|]. split.
  - intros p q Hp Hq. split.
    + apply clip_key_inj; auto.
    + intros [H1 H2]. now apply clip_key_of_parent_stem.
  - rewrite <- (length_map (key_of_pair root)).
    apply Permutation_length, NoDup_Permutation; auto.
    + apply NoDup_map_inj_in; [|apply NoDup_nodup].
      intros x y Hx Hy Heq.
      apply nodup_In, in_map_iff in Hx as (p & <- & Hp).
      apply nodup_In, in_map_iff in Hy as (q & <- & Hq).
      assert (clip_key root p = clip_key root q) as Hk
          by (rewrite (Hpair p Hp), (Hpair q Hq); congruence).
      apply clip_key_inj in Hk as [H1 H2]; auto.
      unfold parent_stem. congruence.
    + intros k. rewrite Hkeys, in_map_iff. split.
      * intros (p & Hp & Hk). exists (parent_stem p). split.
        -- rewrite (Hpair p Hp) in Hk. congruence.
        -- apply nodup_In, in_map. exact Hp.
      * intros (x & <- & Hx).
        apply nodup_In, in_map_iff in Hx as (p & <- & Hp).
        exists p. split; auto.
Qed.

Lemma scan_keys_bijection_witness :
  NoDup (dict_keys [("songs/track", scanned_clip)]) /\
  List.length (dict_keys [("songs/track", scanned_clip)]) =
  List.length
    (nodup parent_stem_dec
       (map parent_stem (regular sample_fs (fs_rglob sample_fs sample_root)))).
Proof.
  destruct (@scan_keys_bijection sample_fs table_store sample_root
              (mkWorld empty_db []) [("songs/track", scanned_clip)]
              scanned_world)
    as (Hnd & _ & _ & Hlen).
  - reflexivity.
  - reflexivity.
  - reflexivity.
  - split; [exact Hnd | exact Hlen].
Defined.

(** C3, as stated, fails.  pathlib splits the name "..mp3" into the stem
    "." and the suffix ".mp3", and joining a directory with "." gives the
    directory back: the file [songs/track/..mp3] bears the key
    "songs/track", as [songs/track.mp3] does.  The two files differ in
    directory and in stem, yet the scanner makes one record of them: one
    key for two pairs. *)
Lemma key_shared_by_two_pairs :
  well_formed_listing sample_root (fs_rglob collision_fs sample_root) /\
  regular collision_fs (fs_rglob collision_fs sample_root) =
    [dotted_mp3; track_mp3] /\
  parent_stem dotted_mp3 = (["clips"; "songs"; "track"], ".") /\
  parent_stem track_mp3 = (["clips"; "songs"], "track") /\
  clip_key sample_root dotted_mp3 = Ok "songs/track" /\
  clip_key sample_root track_mp3 = Ok "songs/track" /\
  dict_keys
    (match fst (scan_clips collision_fs table_store sample_root
                  (mkWorld empty_db []))
     with Ok m => m | Raise _ => [] end) = ["songs/track"] /\
  List.length
    (nodup parent_stem_dec
       (map parent_stem
          (regular collision_fs (fs_rglob collision_fs sample_root)))) = 2.
Proof. repeat split. Qed.

(** C5, as the code has it.  The scanner appends the suffix of every
    later file bearing a key, without a membership test.  When the listing
    names every path once and no regular file has a single dot for stem,
    each record of the mapping lists the suffixes of the regular files
    bearing its key in scan order, with no suffix twice, and the list is
    not empty. *)
Theorem suffixes_distinct (fs : FileSystem) (store : Store) (root : Path)
  (w : World (store_db store)) (m : dict clip_info)
  (w' : World (store_db store)) :
  well_formed_listing root (fs_rglob fs root) ->
  no_dot_stems fs (fs_rglob fs root) ->
  NoDup (fs_rglob fs root) ->
  scan_clips fs store root w = (Ok m, w') ->
  forall k info, In (k, info) m ->
    ci_suffixes info =
    map path_suffix
      (filter (has_key root k) (regular fs (sorted (fs_rglob fs root)))) /\
    NoDup (ci_suffixes info) /\
    ci_suffixes info <> [].
Proof.
  intros Hwf Hdots Hnodup Hrun k info Hin.
  apply scan_clips_invariant in Hrun as (evs & _ & [Hnd Hrec] & Hcov & _ & _).
  apply In_dict_get in Hin; auto.
  specialize (Hcov k). rewrite Hin in Hcov.
  destruct (Hrec _ _ Hin) as (_ & Hne & _).
  split; [exact Hcov|]. split; [|exact Hne].
  rewrite Hcov. apply NoDup_map_inj_in.
  - intros p q Hp Hq Hsuf.
    apply filter_In in Hp as [Hp Hkp], Hq as [Hq Hkq].
    apply -> regular_sorted_In in Hp. apply -> regular_sorted_In in Hq.
    pose proof (@no_dot_stems_In fs _ p Hdots Hp) as Dp.
    pose proof (@no_dot_stems_In fs _ q Hdots Hq) as Dq.
    apply regular_In in Hp as [Hp _], Hq as [Hq _].
    pose proof (well_formed_In _ Hwf Hp) as Up.
    pose proof (well_formed_In _ Hwf Hq) as Uq.
    apply has_key_true in Hkp, Hkq.
    destruct (clip_key_inj root p q Up Uq Dp Dq) as [Hpar Hstem]; [congruence|].
    rewrite (path_rebuild root p Up), (path_rebuild root q Uq). congruence.
  - apply NoDup_filter, NoDup_filter.
    eapply Permutation_NoDup; [symmetry; apply sorted_perm | exact Hnodup].
Qed.

(** C5, as stated, fails.  The files [songs/track/..mp3] and
    [songs/track.mp3] are distinct paths with the same key and the same
    suffix; the record made of them holds ".mp3" twice. *)
Lemma suffix_appended_twice :
  NoDup (fs_rglob collision_fs sample_root) /\
  exists info,
    dict_get "songs/track"
      (match fst (scan_clips collision_fs table_store sample_root
                    (mkWorld empty_db []))
       with Ok m => m | Raise _ => [] end) = Some info /\
    ci_suffixes info = [".mp3"; ".mp3"] /\
    ~ NoDup (ci_suffixes info).
Proof.
  split.
  - simpl. repeat constructor; simpl; intuition discriminate.
  - eexists. split; [reflexivity|]. split; [reflexivity|].
    simpl. intros H. inversion H as [|? ? Hnotin _]. apply Hnotin. now left.
Qed.

Lemma suffixes_distinct_witness :
  NoDup (ci_suffixes scanned_clip) /\ ci_suffixes scanned_clip <> [].
Proof.
  destruct (@suffixes_distinct sample_fs table_store sample_root
              (mkWorld empty_db []) [("songs/track", scanned_clip)]
              scanned_world)
    with (k := "songs/track") (info := scanned_clip)
    as (_ & Hnd & Hne).
  - reflexivity.
  - reflexivity.
  - simpl. repeat constructor; simpl; intuition discriminate.
  - reflexivity.
  - simpl. now left.
  - split; [exact Hnd | exact Hne].
Defined.

(** C9.  In the mapping [scan_clips] returns, the tags of every record
    are those extracted from the first regular file, in sorted order,
    bearing its key; the tag decoder is called once per key, on that first
    file and on no other;
    and in every state the loop reaches, the record an entry is appended to
    already has its "tags" entry, so the guard of the re-extraction branch
    is false each time it is evaluated. *)
Theorem tags_assigned_once (fs : FileSystem) (store : Store) (root : Path)
  (w : World (store_db store)) (m : dict clip_info)
  (w' : World (store_db store)) :
  scan_clips fs store root w = (Ok m, w') ->
  (forall k info, In (k, info) m ->
     exists p tags,
       find (has_key root k) (regular fs (sorted (fs_rglob fs root))) = Some p /\
       extracted fs p = Ok tags /\
       ci_tags info = Some tags) /\
  (exists evs,
      w_events w' = w_events w ++ ERglob root :: evs /\
      one_call_per_key fs root (sorted (fs_rglob fs root)) m evs) /\
  (forall pre x post md w0 w1,
      sorted (fs_rglob fs root) = pre ++ x :: post ->
      for_each (scan_file fs store root) pre [] w0 = (Ok md, w1) ->
      forall k info, dict_get k md = Some info ->
        ci_tags (append_suffix info (path_suffix x)) <> None).
Proof.
  intros Hrun.
  apply scan_clips_invariant in Hrun as (evs & -> & [Hnd Hrec] & _ & Hfirst & Hcalls).
  split; [|split].
  - intros k info Hin. apply In_dict_get in Hin; auto.
    destruct (Hfirst _ _ Hin) as (p & t & Hfind & Hex & Ht & _). eauto.
  - exists evs. split; auto.
  - intros pre x post md w0 w1 _ Hpre k info Hget.
    apply scan_loop_invariant in Hpre as (_ & _ & [_ Hrec'] & _).
    simpl. now apply (Hrec' k info).
Qed.

Lemma tags_assigned_once_witness :
  exists p tags,
    find (has_key sample_root "songs/track")
      (regular sample_fs (sorted (fs_rglob sample_fs sample_root))) = Some p /\
    extracted sample_fs p = Ok tags /\
    ci_tags scanned_clip = Some tags.
Proof.
  destruct (@tags_assigned_once sample_fs table_store sample_root
              (mkWorld empty_db []) [("songs/track", scanned_clip)]
              scanned_world)
    as (Hfirst & _ & _).
  - reflexivity.
  - apply (Hfirst "songs/track" scanned_clip). simpl. now left.
Defined.

(** ** Failures of the tag decoder *)

Lemma extracted_failure (fs : FileSystem) (p : Path) :
  fs_tinytag fs p = Raise TinyTagException -> extracted fs p = Ok None.
Proof.
  intros H. unfold extracted, parse_audio_tags, try_except, TinyTag_get, bind,
    emit, lift, ret. simpl. now rewrite H.
Qed.

Lemma extracted_benign (fs : FileSystem) (p : Path) :
  tinytag_benign fs p = true -> exists t, extracted fs p = Ok t.
Proof.
  unfold tinytag_benign, extracted, parse_audio_tags, try_except, TinyTag_get,
    bind, emit, lift, ret. simpl.
  destruct (fs_tinytag fs p) as [[t|]|[]]; simpl; try discriminate; eauto.
Qed.

Lemma extracted_ok_benign (fs : FileSystem) (p : Path) (t : option tag_dict) :
  extracted fs p = Ok t -> tinytag_benign fs p = true.
Proof.
  unfold tinytag_benign, extracted, parse_audio_tags, try_except, TinyTag_get,
    bind, emit, lift, ret. simpl.
  destruct (fs_tinytag fs p) as [[x|]|[]]; simpl; auto; discriminate.
Qed.

(** [parse_audio_tags] raises only what the decoder raised, and never a
    [TinyTagException]. *)
Lemma extracted_raise (fs : FileSystem) (p : Path) (e : exn) :
  extracted fs p = Raise e ->
  fs_tinytag fs p = Raise e /\ is_TinyTagException e = false.
Proof.
  unfold extracted, parse_audio_tags, try_except, TinyTag_get, bind, emit,
    lift, ret. simpl.
  destruct (fs_tinytag fs p) as [[x|]|[]]; simpl; try discriminate;
    intros [= <-]; auto.
Qed.

(** An iteration on a regular file under the root returns when the decoder
    is benign on the file. *)
Lemma scan_file_returns (fs : FileSystem) (store : Store) (root : Path)
  (md : dict clip_info) (p parent : Path) (w : World (store_db store)) :
  fs_is_file fs p = Ok true ->
  relative_to (path_parent p) root = Ok parent ->
  tinytag_benign fs p = true ->
  exists md' w', scan_file fs store root md p w = (Ok md', w').
Proof.
  intros Hf Hrel Hbenign. unfold scan_file, bind, lift. rewrite Hf, Hrel.
  destruct (extracted_benign _ _ Hbenign) as (t & Hex).
  destruct (dict_get _ md) as [info|].
  - destruct (ci_tags _).
    + unfold ret; eauto.
    + rewrite parse_audio_tags_eq, Hex. unfold ret; eauto.
  - rewrite parse_audio_tags_eq, Hex. unfold ret; eauto.
Qed.

(** An iteration raises for one of the causes of [abort_cause] only. *)
Lemma scan_file_raises (fs : FileSystem) (store : Store) (root : Path)
  (md : dict clip_info) (p : Path) (w : World (store_db store))
  (e : exn) (w' : World (store_db store)) :
  scan_file fs store root md p w = (Raise e, w') -> abort_cause fs root p e.
Proof.
  unfold scan_file, abort_cause, bind, lift.
  destruct (fs_is_file fs p) as [[|]|e0]; [| discriminate | intros [= <- _]; auto].
  destruct (relative_to (path_parent p) root) as [parent|e1];
    [|intros [= <- _]; auto].
  assert (forall k : option tag_dict -> dict clip_info,
             (let (r0, w0) := parse_audio_tags fs store p w in
              match r0 with
              | Ok a => ret (k a) w0
              | Raise e2 => (Raise e2, w0)
              end) = (Raise e, w') ->
             Ok true = Raise e \/
             Ok true = Ok true /\
             (Ok parent = Raise e \/
              fs_tinytag fs p = Raise e /\ is_TinyTagException e = false))
    as Hcall.
  { intros k. rewrite parse_audio_tags_eq.
    destruct (extracted fs p) as [t|e2] eqn:Hex; [discriminate|].
    intros [= <- _]. apply extracted_raise in Hex. auto. }
  destruct (dict_get _ md) as [info|]; [|apply Hcall].
  destruct (ci_tags _); [discriminate | apply Hcall].
Qed.

Lemma scan_loop_raises (fs : FileSystem) (store : Store) (root : Path)
  (l : list Path) :
  forall md (w : World (store_db store)) e w',
    for_each (scan_file fs store root) l md w = (Raise e, w') ->
    exists p, In p l /\ abort_cause fs root p e.
Proof.
  induction l as [|p l IH]; intros md w e w'; simpl; [discriminate|].
  unfold bind.
  destruct (scan_file fs store root md p w) as [[md1|e1] w1] eqn:Hstep.
  - intros Hrest. apply IH in Hrest as (q & Hin & Hcause). eauto.
  - intros [= <- _]. apply scan_file_raises in Hstep. eauto.
Qed.

(** A loop that returns has had an answer from [is_file()] on every
    entry. *)
Lemma scan_loop_answers (fs : FileSystem) (store : Store) (root : Path)
  (l : list Path) :
  forall md (w : World (store_db store)) m w',
    for_each (scan_file fs store root) l md w = (Ok m, w') ->
    forall p, In p l -> is_file_answers fs p = true.
Proof.
  induction l as [|x l IH]; intros md w m w'; simpl; [intros _ p []|].
  unfold bind.
  destruct (scan_file fs store root md x w) as [[md1|e1] w1] eqn:Hstep;
    [|discriminate].
  intros Hrest p [<-|Hin]; [|eapply IH; eauto].
  apply scan_file_step in Hstep as (evs & Hs & _).
  unfold is_file_answers. destruct Hs as [Hf|? ? ? Hf|? ? ? ? Hf|? ? ? ? Hf];
    now rewrite Hf.
Qed.

(** The loop returns when [is_file()] answers on every entry, the entries
    lie below the root, and the decoder is benign on the first regular
    file of each key. *)
Lemma scan_loop_returns (fs : FileSystem) (store : Store) (root : Path)
  (l : list Path) :
  (forall p, In p l -> under_root root p = true) ->
  (forall p, In p l -> is_file_answers fs p = true) ->
  first_files_benign fs root l ->
  forall post pre md (w : World (store_db store)),
    l = pre ++ post ->
    records_complete md -> records_cover fs root pre md ->
    exists m w', for_each (scan_file fs store root) post md w = (Ok m, w').
Proof.
  intros Hunder Hanswers Hbenign.
  induction post as [|x post IH]; intros pre md w Hl Hcomplete Hcov; simpl.
  - unfold ret. eauto.
  - assert (In x l) as Hx by (rewrite Hl; apply in_or_app; right; now left).
    assert (exists md1 w1, scan_file fs store root md x w = (Ok md1, w1))
      as (md1 & w1 & Hstep).
    { pose proof (Hanswers x Hx) as Hans. unfold is_file_answers in Hans.
      destruct (fs_is_file fs x) as [[|]|e0] eqn:Hf; [| |discriminate].
      - destruct (parent_under_root root x (Hunder x Hx)) as (parent & Hrel).
        unfold scan_file, bind, lift. rewrite Hf, Hrel.
        destruct (dict_get (path_str (joinpath parent (path_stem x))) md)
          as [info|] eqn:Hget.
        + destruct Hcomplete as [_ Hrec].
          destruct (Hrec _ _ Hget) as (_ & _ & Ht). simpl.
          destruct (ci_tags info); [unfold ret; eauto | contradiction].
        + rewrite parse_audio_tags_eq.
          destruct (extracted_benign fs x) as (t & ->); [|unfold ret; eauto].
          apply (Hbenign (path_str (joinpath parent (path_stem x)))).
          specialize (Hcov (path_str (joinpath parent (path_stem x)))).
          rewrite Hget in Hcov.
          rewrite Hl. unfold regular in *. rewrite filter_app, find_app, Hcov.
          simpl. rewrite (is_regular_true _ _ Hf). simpl.
          now rewrite (has_key_step root x _ Hrel), String.eqb_refl.
      - unfold scan_file, bind, lift. rewrite Hf. unfold ret. eauto. }
    unfold bind. rewrite Hstep.
    pose proof Hstep as Hstep'.
    apply scan_file_step in Hstep' as (evs & Hs & _).
    apply (IH (pre ++ [x])).
    + now rewrite <- app_assoc.
    + eapply step_complete; eauto.
    + eapply step_cover; eauto.
Qed.

(** C4.  A failure of the tag decoder on one file does not abort the
    scan.  (1) When the decoder raises [TinyTagException],
    [parse_audio_tags] returns [None] rather than raising.  (2) In
    whatever state the loop is, the iteration on a regular file that the
    decoder rejects in this way returns; a record made from the file has
    its tags left as [None]; and the loop goes on with the remaining
    entries.  (3) When [scan_clips] does raise, the exception comes from
    [is_file()], from a path outside the root, or from the decoder raising
    something that is not a [TinyTagException]: never from a rejected
    file.  (4) So, when the entries lie below the root, [is_file()]
    answers on each of them, and the decoder raises nothing but
    [TinyTagException] on the first regular file of each key, [scan_clips]
    returns a mapping that accounts for every regular file of the listing,
    with the tags of a record left as [None] when extraction failed on
    the file the record was made from. *)
Theorem extraction_failure_does_not_abort (fs : FileSystem) (store : Store)
  (root : Path) (w : World (store_db store)) :
  (forall p w0,
      fs_tinytag fs p = Raise TinyTagException ->
      fst (parse_audio_tags fs store p w0) = Ok None) /\
  (forall md p parent w0 rest,
      fs_is_file fs p = Ok true ->
      relative_to (path_parent p) root = Ok parent ->
      fs_tinytag fs p = Raise TinyTagException ->
      exists md' w1,
        scan_file fs store root md p w0 = (Ok md', w1) /\
        (dict_get (path_str (joinpath parent (path_stem p))) md = None ->
         exists info,
           dict_get (path_str (joinpath parent (path_stem p))) md' = Some info /\
           ci_tags info = Some None) /\
        for_each (scan_file fs store root) (p :: rest) md w0 =
        for_each (scan_file fs store root) rest md' w1) /\
  (forall e w',
      scan_clips fs store root w = (Raise e, w') ->
      exists p, In p (fs_rglob fs root) /\ abort_cause fs root p e) /\
  (well_formed_listing root (fs_rglob fs root) ->
   (forall p, In p (fs_rglob fs root) -> is_file_answers fs p = true) ->
   first_files_benign fs root (sorted (fs_rglob fs root)) ->
   exists m w',
     scan_clips fs store root w = (Ok m, w') /\
     (forall p, In p (fs_rglob fs root) -> fs_is_file fs p = Ok true ->
        exists k info,
          clip_key root p = Ok k /\ dict_get k m = Some info /\
          In (path_suffix p) (ci_suffixes info)) /\
     (forall k info p,
        dict_get k m = Some info ->
        find (has_key root k) (regular fs (sorted (fs_rglob fs root))) = Some p ->
        fs_tinytag fs p = Raise TinyTagException ->
        ci_tags info = Some None)).
Proof.
  assert (forall x, In x (sorted (fs_rglob fs root)) -> In x (fs_rglob fs root))
    as Hsorted
    by (intros x; apply Permutation_in, sorted_perm).
  split; [|split; [|split]].
  - intros p w0 Hfail. rewrite parse_audio_tags_eq. simpl.
    now apply extracted_failure.
  - intros md p parent w0 rest Hf Hrel Hfail.
    assert (scan_file fs store root md p w0 =
            (match dict_get (path_str (joinpath parent (path_stem p))) md with
             | None =>
                 Ok (dict_set (path_str (joinpath parent (path_stem p)))
                       (mkClip (path_str (joinpath parent (path_stem p)))
                          (path_str parent) (path_stem p) [path_suffix p]
                          (Some None)) md)
             | Some info =>
                 match ci_tags info with
                 | None =>
                     Ok (dict_set (path_str (joinpath parent (path_stem p)))
                           (set_tags (append_suffix info (path_suffix p)) None)
                           md)
                 | Some _ =>
                     Ok (dict_set (path_str (joinpath parent (path_stem p)))
                           (append_suffix info (path_suffix p)) md)
                 end
             end,
             match dict_get (path_str (joinpath parent (path_stem p))) md with
             | Some info =>
                 match ci_tags info with
                 | Some _ => w0
                 | None => mkWorld (w_db w0) (w_events w0 ++ [ETinyTagGet p])
                 end
             | None => mkWorld (w_db w0) (w_events w0 ++ [ETinyTagGet p])
             end)) as Hstep.
    { unfold scan_file, bind, lift. rewrite Hf, Hrel.
      destruct (dict_get _ md) as [info|]; simpl.
      - destruct (ci_tags info); [reflexivity|].
        now rewrite parse_audio_tags_eq, (extracted_failure _ _ Hfail).
      - now rewrite parse_audio_tags_eq, (extracted_failure _ _ Hfail). }
    destruct (dict_get (path_str (joinpath parent (path_stem p))) md)
      as [info|] eqn:Hget.
    + destruct (ci_tags info);
        (eexists; eexists; split; [exact Hstep|]; split; [discriminate|];
         simpl; unfold bind; now rewrite Hstep).
    + eexists. eexists. split; [exact Hstep|]. split.
      * intros _. eexists. split; [apply dict_get_set_same | reflexivity].
      * simpl. unfold bind. now rewrite Hstep.
  - intros e w'. rewrite scan_clips_unfold. intros Hrun.
    apply scan_loop_raises in Hrun as (p & Hin & Hcause). eauto.
  - intros Hwf Hanswers Hbenign.
    destruct (@scan_loop_returns fs store root (sorted (fs_rglob fs root)))
      with (post := sorted (fs_rglob fs root)) (pre := @nil Path)
           (md := @nil (string * clip_info))
           (w := mkWorld (w_db w) (w_events w ++ [ERglob root]))
      as (m & w' & Hrun); auto.
    { intros p Hin. eapply well_formed_In; eauto. }
    { split; [constructor | discriminate]. }
    { intros k. reflexivity. }
    exists m, w'. rewrite scan_clips_unfold. split; [exact Hrun|].
    apply scan_loop_invariant in Hrun as (evs & _ & _ & Hcov & Hfirst & _).
    split.
    + intros p Hin Hf.
      destruct (clip_key_total root p (well_formed_In _ Hwf Hin)) as (k & Hk).
      assert (In p (filter (has_key root k)
                      (regular fs (sorted (fs_rglob fs root))))) as Hp.
      { apply filter_In. split; [|now apply has_key_true].
        apply regular_sorted_In, regular_In. split; auto.
        now apply is_regular_true. }
      specialize (Hcov k). exists k.
      destruct (dict_get k m) as [info|].
      * exists info. repeat split; auto. rewrite Hcov. now apply in_map.
      * exfalso. rewrite (find_none_filter _ _ Hcov) in Hp. contradiction.
    + intros k info p Hget Hfind Hfail.
      destruct (Hfirst _ _ Hget) as (q & t & Hq & Hex & Ht & _).
      rewrite Hfind in Hq. injection Hq as <-.
      rewrite (extracted_failure _ _ Hfail) in Hex. congruence.
Qed.

Lemma extraction_failure_does_not_abort_witness :
  exists m w',
    scan_clips mixed_fs table_store sample_root (mkWorld empty_db []) =
    (Ok m, w') /\
    exists k info,
      clip_key sample_root track_mp3 = Ok k /\ dict_get k m = Some info /\
      In (path_suffix track_mp3) (ci_suffixes info).
Proof.
  destruct (@extraction_failure_does_not_abort mixed_fs table_store
              sample_root (mkWorld empty_db []))
    as (_ & _ & _ & Hreturns).
  destruct Hreturns as (m & w' & Hrun & Hall & _).
  - reflexivity.
  - intros p [<-|[<-|[<-|[]]]]; reflexivity.
  - intros k p Hfind.
    assert (p = track_m4a) as ->; [|reflexivity].
    revert Hfind.
    change (regular mixed_fs (sorted (fs_rglob mixed_fs sample_root)))
      with [track_m4a; track_mp3].
    unfold find, has_key.
    change (clip_key sample_root track_m4a) with (@Ok string "songs/track").
    change (clip_key sample_root track_mp3) with (@Ok string "songs/track").
    destruct (String.eqb "songs/track" k); [congruence | discriminate].
  - exists m, w'. split; [exact Hrun|].
    apply Hall; [simpl; auto | reflexivity].
Defined.

(** C1.  On the tree of the end-to-end scenario the corrupt
    [songs/track.m4a] sorts before [songs/track.mp3]; the record is made
    from the first with its "tags" entry holding [None], and extraction is
    not tried again on the second although it would succeed. *)
Theorem later_variant_tags_not_used :
  sorted (fs_rglob sample_fs sample_root) =
    [["clips"; "songs"]; track_m4a; track_mp3] /\
  extracted sample_fs track_m4a = Ok None /\
  extracted sample_fs track_mp3 =
    Ok (Some (mkTags (VStr "B") (VStr "A") (VStr "T") (VInt 2001))) /\
  scan_clips sample_fs table_store sample_root (mkWorld empty_db []) =
    (Ok [("songs/track", scanned_clip)], scanned_world) /\
  ci_tags scanned_clip = Some None /\
  tinytag_calls (w_events scanned_world) = [track_m4a].
Proof. repeat split. Qed.

(** ** Events of the writer *)

Section Emits.
Variable D : Type.
Variable P : Event -> Prop.

Lemma emits_ret (A : Type) (a : A) : emits P (@ret (World D) A a).
Proof.
  intros w r w' [= <- <-]. exists []. now rewrite app_nil_r.
Qed.

Lemma emits_lift (A : Type) (x : result A) : emits P (@lift (World D) A x).
Proof.
  intros w r w' [= <- <-]. exists []. now rewrite app_nil_r.
Qed.

Lemma emits_emit (e : Event) : P e -> emits P (@emit D e).
Proof.
  intros He w r w' [= <- <-]. exists [e]. simpl. auto.
Qed.

Lemma emits_bind (A B : Type) (m : Prog (World D) A) (k : A -> Prog (World D) B) :
  emits P m -> (forall a, emits P (k a)) -> emits P (bind m k).
Proof.
  intros Hm Hk w r w'. unfold bind.
  destruct (m w) as [[a|e] w1] eqn:E.
  - destruct (Hm _ _ _ E) as (evs1 & H1 & F1).
    intros Hrun. destruct (Hk a _ _ _ Hrun) as (evs2 & H2 & F2).
    exists (evs1 ++ evs2). rewrite H2, H1, app_assoc. split; auto.
    now apply Forall_app.
  - intros [= <- <-]. exact (Hm _ _ _ E).
Qed.

Lemma emits_bind_lift (A B : Type) (x : result A) (k : A -> Prog (World D) B) :
  (forall a, x = Ok a -> emits P (k a)) -> emits P (bind (lift x) k).
Proof.
  intros Hk w r w'. unfold bind, lift. destruct x as [a|e].
  - apply Hk. reflexivity.
  - intros [= <- <-]. exists []. now rewrite app_nil_r.
Qed.

Lemma emits_for_each (S A : Type) (body : S -> A -> Prog (World D) S)
  (l : list A) :
  (forall s x, In x l -> emits P (body s x)) ->
  forall s, emits P (for_each body l s).
Proof.
  induction l as [|x l IH]; intros Hbody s; simpl.
  - apply emits_ret.
  - apply emits_bind.
    + apply Hbody. now left.
    + intros s'. apply IH. intros; apply Hbody; now right.
Qed.

End Emits.

Lemma emits_execute (store : Store) (P : Event -> Prop) (q : string)
  (ps : list Value) :
  P (EExecute (mkStmt q ps)) -> emits P (cursor_execute store q ps).
Proof.
  intros HP w r w'. unfold cursor_execute, bind, emit.
  simpl. destruct (store_execute store (mkStmt q ps) (w_db w)) as [r1 db1].
  intros [= <- <-]. exists [EExecute (mkStmt q ps)]. simpl. auto.
Qed.

Ltac emits_step :=
  first
    [ apply emits_ret
    | apply emits_emit
    | apply emits_execute
    | apply emits_bind; [|intros ?] ].

(** The events of one pass of the per-clip protocol. *)
Lemma write_clip_emits (store : Store) (P : Event -> Prop)
  (clips_info : dict clip_info) (clip : string) :
  P ECursor -> P ECursorClose -> P EFetchone -> (forall msg, P (EPrint msg)) ->
  (forall info,
      dict_get clip clips_info = Some info ->
      P (EExecute
           (mkStmt INSERT_CLIP
              [VStr (ci_key info); VStr (ci_stem info); VStr (ci_parent info);
               VBool (contains ".mp3" (ci_suffixes info));
               VBool (contains ".m4a" (ci_suffixes info));
               VBool (contains ".m4r" (ci_suffixes info))]))) ->
  (forall ps, P (EExecute (mkStmt SELECT_ID ps))) ->
  (forall ps, P (EExecute (mkStmt INSERT_TAG ps))) ->
  emits P (write_clip store clips_info clip).
Proof.
  intros Hc Hcc Hf Hp Hins Hsel Htag. unfold write_clip.
  apply emits_bind_lift. intros info Hinfo.
  assert (dict_get clip clips_info = Some info) as Hget
      by (destruct (dict_get clip clips_info); congruence).
  unfold cursor, cursor_close, fetchone, print.
  repeat emits_step; auto.
  destruct (ci_tags info) as [[tags|]|]; repeat emits_step; auto.
  destruct (row_truthy _); repeat emits_step; auto.
Qed.

Lemma contains_In (x : string) (l : list string) :
  contains x l = true <-> In x l.
Proof.
  unfold contains. rewrite existsb_exists. split.
  - intros (y & Hy & E). apply String.eqb_eq in E. now subst.
  - intros H. exists x. split; auto. apply String.eqb_refl.
Qed.

Lemma executed_app (evs evs' : list Event) :
  executed (evs ++ evs') = executed evs ++ executed evs'.
Proof.
  induction evs as [|e evs IH]; simpl; auto. destruct e; simpl; congruence.
Qed.

Lemma clip_inserts_app (evs evs' : list Event) :
  clip_inserts (evs ++ evs') = clip_inserts evs ++ clip_inserts evs'.
Proof. unfold clip_inserts. now rewrite executed_app, filter_app. Qed.

Lemma In_executed (s : Stmt) (evs : list Event) :
  In s (executed evs) <-> In (EExecute s) evs.
Proof.
  induction evs as [|e evs IH]; simpl; [tauto|].
  destruct e; simpl; rewrite IH; intuition congruence.
Qed.

(** Case analysis on the answer of the store to the next statement. *)
Ltac destruct_execute :=
  match goal with
  | |- context [store_execute ?st ?s ?d] =>
      let r := fresh "rows" in
      let e := fresh "e" in
      let db := fresh "db" in
      destruct (store_execute st s d) as [[r|e] db]; simpl; [|discriminate]
  end.

(** A pass of the per-clip protocol that returns has executed exactly one
    inventory statement, the one of the record under the key. *)
Lemma write_clip_inserts (store : Store) (clips_info : dict clip_info)
  (clip : string) (w w' : World (store_db store)) :
  write_clip store clips_info clip w = (Ok tt, w') ->
  exists info evs,
    dict_get clip clips_info = Some info /\
    w_events w' = w_events w ++ evs /\
    clip_inserts evs =
      [mkStmt INSERT_CLIP
         [VStr (ci_key info); VStr (ci_stem info); VStr (ci_parent info);
          VBool (contains ".mp3" (ci_suffixes info));
          VBool (contains ".m4a" (ci_suffixes info));
          VBool (contains ".m4r" (ci_suffixes info))]].
Proof.
  unfold write_clip, cursor, cursor_close, fetchone, print, cursor_execute.
  unfold bind, lift, emit, ret.
  destruct (dict_get clip clips_info) as [info|]; [|discriminate].
  simpl. destruct_execute.
  destruct (ci_tags info) as [[tags|]|]; simpl.
  - destruct_execute. destruct (row_truthy (hd_error rows0)); simpl.
    + destruct_execute. intros [= <-]. exists info. eexists.
      split; [reflexivity|]. simpl. rewrite <- !app_assoc. split; reflexivity.
    + intros [= <-]. exists info. eexists. split; [reflexivity|].
      simpl. rewrite <- !app_assoc. split; reflexivity.
  - intros [= <-]. exists info. eexists. split; [reflexivity|].
    simpl. rewrite <- !app_assoc. split; reflexivity.
  - intros [= <-]. exists info. eexists. split; [reflexivity|].
    simpl. rewrite <- !app_assoc. split; reflexivity.
Qed.

(** ** The writer as a whole *)

Lemma inventory_stmt_row (clips_info : dict clip_info) (clip : string)
  (info : clip_info) :
  dict_get clip clips_info = Some info ->
  inventory_row_of clips_info (inventory_stmt info).
Proof.
  intros Hget. exists clip, info. do 3 eexists.
  split; [exact Hget|]. split; [reflexivity|].
  repeat split; apply contains_In.
Qed.

Lemma create_database_entries_emits (store : Store) (P : Event -> Prop)
  (clips_info : dict clip_info) (settings : dict Value) :
  P (EConnect settings) -> P EConnectionClose ->
  P ECursor -> P ECursorClose -> P EFetchone -> (forall msg, P (EPrint msg)) ->
  (forall clip info,
      dict_get clip clips_info = Some info -> P (EExecute (inventory_stmt info))) ->
  (forall ps, P (EExecute (mkStmt SELECT_ID ps))) ->
  (forall ps, P (EExecute (mkStmt INSERT_TAG ps))) ->
  emits P (create_database_entries store clips_info settings).
Proof.
  intros Hcon Hclose Hc Hcc Hf Hp Hins Hsel Htag.
  unfold create_database_entries, connect, connection_close.
  destruct settings as [|kv settings]; [apply emits_ret|].
  apply emits_bind; [|intros _].
  - apply emits_bind; [now apply emits_emit | intros _; apply emits_lift].
  - apply emits_bind; [|intros _; now apply emits_emit].
    apply emits_for_each. intros [] clip _.
    apply write_clip_emits; auto. intros info. apply Hins.
Qed.

Lemma write_loop_inserts (store : Store) (clips_info : dict clip_info)
  (keys : list string) (w w' : World (store_db store)) :
  for_each (fun _ clip => write_clip store clips_info clip) keys tt w =
  (Ok tt, w') ->
  exists evs,
    w_events w' = w_events w ++ evs /\
    Forall2 (fun s clip =>
               exists info,
                 dict_get clip clips_info = Some info /\ s = inventory_stmt info)
      (clip_inserts evs) keys.
Proof.
  revert w. induction keys as [|clip keys IH]; intros w; simpl.
  - intros [= <-]. exists []. rewrite app_nil_r. split; [reflexivity|constructor].
  - unfold bind.
    destruct (write_clip store clips_info clip w) as [[[]|e] w1] eqn:Hclip;
      [|discriminate].
    intros Hrest.
    apply write_clip_inserts in Hclip as (info & evs1 & Hget & Hev1 & Hins).
    apply IH in Hrest as (evs2 & Hev2 & Hall).
    exists (evs1 ++ evs2). split.
    + now rewrite Hev2, Hev1, app_assoc.
    + rewrite clip_inserts_app, Hins. simpl. constructor; eauto.
Qed.

(** C7.  Every inventory statement [create_database_entries] executes
    carries the key, stem and parent of a record of the mapping and three
    flags that are true exactly when ".mp3", ".m4a" and ".m4r" are among
    the suffixes of that record; when the writer returns, it has executed
    one such statement per key, in the order of the mapping.  For a record
    with suffixes ".mp3" and ".wav" the flags are true, false, false. *)
Theorem format_flags_are_membership (store : Store)
  (clips_info : dict clip_info) (settings : dict Value)
  (w : World (store_db store)) (r : result unit)
  (w' : World (store_db store)) :
  create_database_entries store clips_info settings w = (r, w') ->
  exists evs,
    w_events w' = w_events w ++ evs /\
    Forall (inventory_row_of clips_info) (clip_inserts evs) /\
    (settings <> [] -> r = Ok tt ->
     Forall2 (fun s clip =>
                exists info,
                  dict_get clip clips_info = Some info /\ s = inventory_stmt info)
       (clip_inserts evs) (dict_keys clips_info)) /\
    stmt_params (inventory_stmt tagged_clip) =
      [VStr "songs/track"; VStr "track"; VStr "songs";
       VBool true; VBool false; VBool false].
Proof.
  intros Hrun.
  assert (emits (inventory_event clips_info)
            (create_database_entries store clips_info settings)) as Hemits.
  { apply create_database_entries_emits; simpl; auto.
    - intros clip info Hget _. eapply inventory_stmt_row; eauto.
    - intros ps H. discriminate H.
    - intros ps H. discriminate H. }
  destruct (Hemits _ _ _ Hrun) as (evs & Hev & Hall).
  exists evs. split; [exact Hev|]. split; [|split; [|reflexivity]].
  - apply Forall_forall. intros s Hs.
    apply filter_In in Hs as [Hs Hq].
    apply In_executed in Hs. apply String.eqb_eq in Hq.
    rewrite Forall_forall in Hall. exact (Hall _ Hs Hq).
  - intros Hne ->. revert Hrun.
    unfold create_database_entries, connect, connection_close.
    destruct settings as [|kv settings]; [congruence|].
    unfold bind, emit, lift. simpl.
    destruct (store_connect store (kv :: settings)) as [[]|e]; [|discriminate].
    match goal with
    | |- context [for_each ?b ?l ?s ?w0] =>
        destruct (for_each b l s w0) as [[[]|e] w1] eqn:Hloop
    end; [|discriminate].
    intros [= <-].
    apply write_loop_inserts in Hloop as (evs1 & Hev1 & Hins).
    simpl in Hev, Hev1. rewrite Hev1, <- !app_assoc in Hev.
    apply app_inv_head in Hev. subst evs.
    rewrite !clip_inserts_app.
    change (clip_inserts [EConnect (kv :: settings)]) with (@nil Stmt).
    change (clip_inserts [EConnectionClose]) with (@nil Stmt).
    now rewrite app_nil_r.
Qed.

Lemma format_flags_are_membership_witness :
  Forall (inventory_row_of [("songs/track", tagged_clip)])
    [inventory_stmt tagged_clip].
Proof.
  destruct (@format_flags_are_membership table_store
              [("songs/track", tagged_clip)] sample_settings
              (mkWorld empty_db []) (Ok tt)
              (mkWorld
                 (mkDb [(1%Z, stmt_params (inventory_stmt tagged_clip))]
                    [[VInt 1; VStr "A"; VStr "B"; VStr "T"; VInt 2001]])
                 [EConnect sample_settings; ECursor;
                  EExecute (inventory_stmt tagged_clip);
                  ECursorClose; ECursor;
                  EExecute (mkStmt SELECT_ID [VStr "songs/track"]); EFetchone;
                  ECursorClose; ECursor;
                  EExecute (mkStmt INSERT_TAG
                              [VInt 1; VStr "A"; VStr "B"; VStr "T"; VInt 2001]);
                  ECursorClose; EConnectionClose]))
    as (evs & Hev & Hall & _).
  - reflexivity.
  - simpl in Hev. subst evs. exact Hall.
Defined.



(** ** Replaying the statements of a run *)



Section Replays.
Variable store : Store.

Local Abbreviation W := (World (store_db store)).







End Replays.









(** C10.  For a clip that has tags, when the inventory statement succeeds
    and the identity lookup yields no row, the per-clip protocol stops
    after the lookup: it returns normally, having executed the inventory
    statement and the lookup only; no tag statement is executed and nothing
    is printed. *)
Theorem missing_identity_skips_tag_row (store : Store)
  (clips_info : dict clip_info) (clip : string) (info : clip_info)
  (tags : tag_dict) (w : World (store_db store))
  (rows0 rows : list Row) (db1 db2 : store_db store) :
  dict_get clip clips_info = Some info ->
  ci_tags info = Some (Some tags) ->
  store_execute store (inventory_stmt info) (w_db w) = (Ok rows0, db1) ->
  store_execute store (mkStmt SELECT_ID [VStr (ci_key info)]) db1 =
    (Ok rows, db2) ->
  row_truthy (hd_error rows) = false ->
  exists evs,
    write_clip store clips_info clip w =
      (Ok tt, mkWorld db2 (w_events w ++ evs)) /\
    evs = [ECursor; EExecute (inventory_stmt info); ECursorClose; ECursor;
           EExecute (mkStmt SELECT_ID [VStr (ci_key info)]); EFetchone;
           ECursorClose] /\
    (forall s, In (EExecute s) evs -> stmt_query s <> INSERT_TAG) /\
    (forall msg, ~ In (EPrint msg) evs).
Proof.
  intros Hget Htags Hins Hsel Hrow.
  eexists. split; [|split; [reflexivity|split]].
  - unfold write_clip, cursor, cursor_close, fetchone, print, cursor_execute.
    unfold bind, lift, emit, ret. rewrite Hget. simpl.
    unfold inventory_stmt in Hins. rewrite Hins. simpl.
    rewrite Htags. simpl. rewrite Hsel. simpl. rewrite Hrow.
    rewrite <- !app_assoc. reflexivity.
  - intros s [H|[H|[H|[H|[H|[H|[H|[]]]]]]]]; try discriminate H;
      injection H as <-; discriminate.
  - intros msg [H|[H|[H|[H|[H|[H|[H|[]]]]]]]]; discriminate H.
Qed.

Lemma missing_identity_skips_tag_row_witness :
  write_clip blackhole_store [("songs/track", tagged_clip)] "songs/track"
    (mkWorld tt []) =
  (Ok tt,
   mkWorld tt
     [ECursor; EExecute (inventory_stmt tagged_clip); ECursorClose; ECursor;
      EExecute (mkStmt SELECT_ID [VStr "songs/track"]); EFetchone;
      ECursorClose]).
Proof.
  destruct (@missing_identity_skips_tag_row blackhole_store
              [("songs/track", tagged_clip)] "songs/track" tagged_clip
              (mkTags (VStr "B") (VStr "A") (VStr "T") (VInt 2001))
              (mkWorld tt []) [] [] tt tt)
    as (evs & Hrun & -> & _).
  - reflexivity.
  - reflexivity.
  - reflexivity.
  - reflexivity.
  - reflexivity.
  - exact Hrun.
Defined.

(** C2, as the code has it.  With empty store settings nothing is sent to
    the store: [create_database_entries] returns at once, the world
    unchanged; and the script exits before the scan, the world unchanged,
    so that a run with empty settings produces no mapping. *)
Theorem empty_settings_skip_scan_and_write (fs : FileSystem) (store : Store)
  (app_settings : dict Value) (clips_info : dict clip_info)
  (w : World (store_db store)) :
  create_database_entries store clips_info [] w = (Ok tt, w) /\
  main fs store app_settings [] w = (Raise SystemExit, w).
Proof.
  split; [reflexivity|].
  unfold main. destruct (negb (truthy _)); reflexivity.
Qed.

(** C2, as stated, fails: on the tree of the scenario, where the scanner
    finds a clip, the script run with empty store settings exits before
    scanning and binds no mapping. *)
Lemma empty_settings_no_mapping :
  fst (scan_clips sample_fs table_store sample_root (mkWorld empty_db [])) =
    Ok [("songs/track", scanned_clip)] /\
  main sample_fs table_store sample_app_settings [] (mkWorld empty_db []) =
    (Raise SystemExit, mkWorld empty_db []).
Proof. split; reflexivity. Qed.

(** * Further properties of the scanner *)

(** ** Entries that are not regular files *)

Lemma scan_loop_regular (fs : FileSystem) (store : Store) (root : Path)
  (l : list Path) :
  forall md (w : World (store_db store)),
    for_each (scan_file fs store root) l md w =
    for_each (scan_file fs store root)
      (filter (fun p => negb (not_a_file fs p)) l) md w.
Proof.
  induction l as [|p l IH]; intros md w; simpl; auto.
  unfold not_a_file at 1.
  destruct (fs_is_file fs p) as [[|]|e0] eqn:Hf; simpl.
  - unfold bind. destruct (scan_file fs store root md p w) as [[md'|e] w']; auto.
  - unfold bind, scan_file, lift. rewrite Hf. unfold ret. apply IH.
  - unfold bind. destruct (scan_file fs store root md p w) as [[md'|e] w']; auto.
Qed.

Lemma filter_perm (A : Type) (f : A -> bool) (l l' : list A) :
  Permutation l l' -> Permutation (filter f l) (filter f l').
Proof.
  induction 1 as [|x l l' _ IH|x y l|l l' l'' _ IH1 _ IH2]; simpl; auto.
  - destruct (f x); auto.
  - destruct (f x), (f y); auto. apply perm_swap.
  - now rewrite IH1.
Qed.

Lemma filter_strongly_sorted (f : Path -> bool) (l : list Path) :
  StronglySorted path_le l -> StronglySorted path_le (filter f l).
Proof.
  induction 1 as [|a l Hl IH Ha]; simpl; [constructor|].
  destruct (f a); auto. constructor; auto.
  rewrite Forall_forall in *. intros x Hx. apply filter_In in Hx as [Hx _]. auto.
Qed.

Lemma sorted_filter (f : Path -> bool) (l : list Path) :
  sorted (filter f l) = filter f (sorted l).
Proof.
  apply strongly_sorted_unique.
  - apply sorted_sorted.
  - apply filter_strongly_sorted, sorted_sorted.
  - rewrite sorted_perm. apply filter_perm. symmetry. apply sorted_perm.
Qed.

(** X1.  Entries that are not regular files have no influence on the
    scan: with the directories and special files, the entries on which
    [is_file()] answers [False], left out of the enumeration, [scan_clips]
    returns the same mapping and makes the same calls. *)
Theorem scan_ignores_non_files (fs : FileSystem) (store : Store)
  (clips_path : Path) (w : World (store_db store)) :
  scan_clips fs store clips_path w =
  scan_clips (files_only fs) store clips_path w.
Proof.
  rewrite !scan_clips_unfold. simpl fs_rglob.
  rewrite sorted_filter, scan_loop_regular.
  apply for_each_ext. now apply scan_file_ext.
Qed.

(** ** What the scanner touches *)

Lemma scan_file_effects (fs : FileSystem) (store : Store) (root : Path)
  (md : dict clip_info) (p : Path) (w : World (store_db store))
  (r : result (dict clip_info)) (w' : World (store_db store)) :
  scan_file fs store root md p w = (r, w') ->
  w_db w' = w_db w /\
  exists evs,
    w_events w' = w_events w ++ evs /\
    (evs = [] \/ (evs = [ETinyTagGet p] /\ fs_is_file fs p = Ok true)).
Proof.
  unfold scan_file.
  assert (forall x : result (dict clip_info),
             (x, w) = (r, w') ->
             w_db w' = w_db w /\
             exists evs,
               w_events w' = w_events w ++ evs /\
               (evs = [] \/ (evs = [ETinyTagGet p] /\ fs_is_file fs p = Ok true)))
    as Hquiet.
  { intros x [= _ <-]. split; auto. exists []. rewrite app_nil_r. auto. }
  unfold bind, lift.
  destruct (fs_is_file fs p) as [[|]|e0] eqn:Hf; [|apply Hquiet|apply Hquiet].
  destruct (relative_to (path_parent p) root) as [parent|e]; [|apply Hquiet].
  assert (forall k : option tag_dict -> dict clip_info,
             (let (r0, w0) := parse_audio_tags fs store p w in
              match r0 with
              | Ok a => ret (k a) w0
              | Raise e => (Raise e, w0)
              end) = (r, w') ->
             w_db w' = w_db w /\
             exists evs,
               w_events w' = w_events w ++ evs /\
               (evs = [] \/ (evs = [ETinyTagGet p] /\ Ok true = Ok true)))
    as Hcall.
  { intros k. rewrite parse_audio_tags_eq.
    destruct (extracted fs p); unfold ret; intros [= _ <-]; simpl;
      (split; [reflexivity|]); exists [ETinyTagGet p]; auto. }
  destruct (dict_get _ md) as [info|]; [|apply Hcall].
  destruct (ci_tags _); [apply Hquiet | apply Hcall].
Qed.

Lemma scan_loop_effects (fs : FileSystem) (store : Store) (root : Path)
  (l : list Path) :
  forall md (w : World (store_db store)) r w',
    for_each (scan_file fs store root) l md w = (r, w') ->
    w_db w' = w_db w /\
    exists evs,
      w_events w' = w_events w ++ evs /\ Forall (decoder_call fs l) evs.
Proof.
  induction l as [|p l IH]; intros md w r w'; simpl.
  - intros [= _ <-]. split; auto. exists []. now rewrite app_nil_r.
  - unfold bind.
    destruct (scan_file fs store root md p w) as [[md1|e] w1] eqn:Hstep;
      apply scan_file_effects in Hstep as (Hdb & evs1 & Hev1 & Hcase).
    + intros Hrest. apply IH in Hrest as (Hdb2 & evs2 & Hev2 & Hall).
      split; [congruence|]. exists (evs1 ++ evs2).
      split; [now rewrite Hev2, Hev1, app_assoc|].
      apply Forall_app. split.
      * destruct Hcase as [->|[-> Hf]]; constructor; auto.
        exists p. simpl. auto.
      * eapply Forall_impl; [|exact Hall].
        intros e (q & -> & Hin & Hf). exists q. simpl. auto.
    + intros [= <- <-]. split; auto. exists evs1. split; auto.
      destruct Hcase as [->|[-> Hf]]; constructor; auto.
      exists p. simpl. auto.
Qed.

(** X2.  Whether it returns or raises, [scan_clips] leaves the database
    as it was and sends nothing to the store: it asks for the enumeration
    of the root once, first, and after that only calls the tag decoder, on
    regular files of that enumeration. *)
Theorem scan_touches_files_only (fs : FileSystem) (store : Store)
  (clips_path : Path) (w : World (store_db store))
  (r : result (dict clip_info)) (w' : World (store_db store)) :
  scan_clips fs store clips_path w = (r, w') ->
  w_db w' = w_db w /\
  exists evs,
    w_events w' = w_events w ++ ERglob clips_path :: evs /\
    Forall (decoder_call fs (fs_rglob fs clips_path)) evs.
Proof.
  rewrite scan_clips_unfold. intros Hrun.
  apply scan_loop_effects in Hrun as (Hdb & evs & Hev & Hall).
  split; [exact Hdb|]. exists evs. simpl in Hev.
  split; [now rewrite Hev, <- app_assoc|].
  eapply Forall_impl; [|exact Hall].
  intros e (p & -> & Hin & Hf). exists p. repeat split; auto.
  eapply Permutation_in; [apply sorted_perm | exact Hin].
Qed.

Lemma scan_touches_files_only_witness :
  Forall (decoder_call sample_fs (fs_rglob sample_fs sample_root))
    [ETinyTagGet track_m4a].
Proof.
  destruct (@scan_touches_files_only sample_fs table_store sample_root
              (mkWorld empty_db []) (Ok [("songs/track", scanned_clip)])
              scanned_world)
    as (_ & evs & Hev & Hall).
  - reflexivity.
  - simpl in Hev. injection Hev as <-. exact Hall.
Defined.

(** ** Names and order of the records *)

Lemma keys_of_app (root : Path) (l l' : list Path) :
  keys_of root (l ++ l') = keys_of root l ++ keys_of root l'.
Proof. unfold keys_of. apply flat_map_app. Qed.

Lemma In_keys_of (root : Path) (l : list Path) (k : string) :
  In k (keys_of root l) <-> exists p, In p l /\ clip_key root p = Ok k.
Proof.
  unfold keys_of. rewrite in_flat_map. split.
  - intros (p & Hin & Hk). exists p. split; auto.
    destruct (clip_key root p) as [k'|e]; [|contradiction].
    destruct Hk as [->|[]]. reflexivity.
  - intros (p & Hin & Hk). exists p. split; auto. rewrite Hk. now left.
Qed.

Lemma In_first_occurrences (l : list string) (k : string) :
  In k (first_occurrences l) <-> In k l.
Proof.
  induction l as [|a l IH]; simpl; [tauto|].
  rewrite filter_In, IH, negb_true_iff, String.eqb_neq.
  destruct (string_dec a k); intuition congruence.
Qed.

Lemma first_occurrences_snoc (l : list string) (k : string) :
  first_occurrences (l ++ [k]) =
  if contains k l then first_occurrences l else first_occurrences l ++ [k].
Proof.
  unfold contains. induction l as [|a l IH]; simpl; auto.
  rewrite IH. destruct (existsb (String.eqb k) l); simpl.
  - now rewrite orb_true_r.
  - rewrite orb_false_r, filter_app. simpl.
    destruct (String.eqb k a); simpl; auto. now rewrite app_nil_r.
Qed.

Lemma not_seen_no_key (fs : FileSystem) (root : Path) (seen : list Path)
  (k : string) :
  find (has_key root k) (regular fs seen) = None ->
  contains k (keys_of root (regular fs seen)) = false.
Proof.
  intros Hfind. destruct (contains k _) eqn:E; auto. exfalso.
  apply contains_In, In_keys_of in E as (p & Hin & Hk).
  apply (find_none _ _ Hfind) in Hin. apply has_key_true in Hk. congruence.
Qed.

Section NamesAndOrder.
Variable fs : FileSystem.
Variable root : Path.

Lemma step_named (md md' : dict clip_info) (seen : list Path) (p : Path)
  (evs : list Event) :
  scan_step fs root md p md' evs ->
  records_complete md -> records_cover fs root seen md ->
  records_named fs root seen md ->
  records_named fs root (seen ++ [p]) md'.
Proof.
  intros Hstep [_ Hrec] Hcov Hnamed k info'. rewrite regular_snoc, find_app.
  destruct Hstep as [Hf | parent key t Hf Hrel -> Hget Hex
                     | parent key info t Hf Hrel -> Hget Htags
                     | parent key info t Hf Hrel -> Hget Htags Hex];
    regular_flag Hf.
  - intros Hk. destruct (Hnamed _ _ Hk) as (q & par & -> & H). eauto.
  - destruct (string_dec (path_str (joinpath parent (path_stem p))) k) as [<-|Hne].
    + rewrite dict_get_set_same. intros [= <-].
      specialize (Hcov (path_str (joinpath parent (path_stem p)))).
      rewrite Hget in Hcov. rewrite Hcov, Hf. simpl.
      rewrite (has_key_step root p _ Hrel), String.eqb_refl.
      exists p, parent. auto.
    + rewrite dict_get_set_other by assumption. intros Hk.
      destruct (Hnamed _ _ Hk) as (q & par & -> & H). eauto.
  - destruct (string_dec (path_str (joinpath parent (path_stem p))) k) as [<-|Hne].
    + rewrite dict_get_set_same. intros [= <-].
      destruct (Hnamed _ _ Hget) as (q & par & -> & H). simpl. eauto.
    + rewrite dict_get_set_other by assumption. intros Hk.
      destruct (Hnamed _ _ Hk) as (q & par & -> & H). eauto.
  - exfalso. destruct (Hrec _ _ Hget) as (_ & _ & Ht). contradiction.
Qed.

Lemma step_order (md md' : dict clip_info) (seen : list Path) (p : Path)
  (evs : list Event) :
  scan_step fs root md p md' evs ->
  records_cover fs root seen md ->
  keys_in_scan_order fs root seen md ->
  keys_in_scan_order fs root (seen ++ [p]) md'.
Proof.
  unfold keys_in_scan_order. intros Hstep Hcov Hkeys.
  rewrite regular_snoc, keys_of_app.
  assert (forall parent,
             is_regular fs p = true ->
             relative_to (path_parent p) root = Ok parent ->
             keys_of root (if is_regular fs p then [p] else []) =
             [path_str (joinpath parent (path_stem p))]) as Hone.
  { intros parent Hf Hrel. rewrite Hf. unfold keys_of, clip_key. simpl.
    now rewrite Hrel. }
  assert (forall parent info,
             is_regular fs p = true ->
             relative_to (path_parent p) root = Ok parent ->
             dict_get (path_str (joinpath parent (path_stem p))) md = Some info ->
             first_occurrences
               (keys_of root (regular fs seen) ++
                keys_of root (if is_regular fs p then [p] else [])) =
             dict_keys md) as Hold.
  { intros parent info Hf Hrel Hget.
    rewrite (Hone parent Hf Hrel), first_occurrences_snoc.
    assert (In (path_str (joinpath parent (path_stem p))) (dict_keys md)) as Hin.
    { apply dict_get_In in Hget.
      change (path_str (joinpath parent (path_stem p)))
        with (fst (path_str (joinpath parent (path_stem p)), info)).
      now apply in_map. }
    rewrite Hkeys in Hin. apply -> In_first_occurrences in Hin.
    apply <- contains_In in Hin.
    now rewrite Hin. }
  destruct Hstep as [Hf | parent key t Hf Hrel -> Hget Hex
                     | parent key info t Hf Hrel -> Hget Htags
                     | parent key info t Hf Hrel -> Hget Htags Hex];
    regular_flag Hf.
  - rewrite Hf. simpl. now rewrite app_nil_r.
  - rewrite dict_keys_set_new by assumption.
    rewrite (Hone parent Hf Hrel), first_occurrences_snoc.
    specialize (Hcov (path_str (joinpath parent (path_stem p)))).
    rewrite Hget in Hcov. rewrite (not_seen_no_key _ _ _ _ Hcov). now rewrite Hkeys.
  - rewrite (dict_keys_set_old _ _ _ Hget). symmetry. eapply Hold; eauto.
  - rewrite (dict_keys_set_old _ _ _ Hget). symmetry. eapply Hold; eauto.
Qed.

Lemma scan_loop_names (store : Store) (l : list Path)
  (w0 : World (store_db store)) (md : dict clip_info)
  (w : World (store_db store)) :
  for_each (scan_file fs store root) l [] w0 = (Ok md, w) ->
  records_named fs root l md /\ keys_in_scan_order fs root l md.
Proof.
  intros Hrun.
  enough (records_complete md /\ records_cover fs root l md /\
          records_named fs root l md /\ keys_in_scan_order fs root l md)
    by tauto.
  revert Hrun.
  apply (for_each_invariant (scan_file fs store root)
           (fun seen md (_ : World (store_db store)) =>
              records_complete md /\ records_cover fs root seen md /\
              records_named fs root seen md /\
              keys_in_scan_order fs root seen md)).
  - intros pre x post s w1 s' w' _ (HA & HB & HC & HD) Hrun.
    apply scan_file_step in Hrun as (evs' & Hstep & _).
    split; [eapply step_complete; eauto|].
    split; [eapply step_cover; eauto|].
    split; [eapply step_named; eauto | eapply step_order; eauto].
  - split; [split; [constructor | discriminate]|].
    split; [intros k; reflexivity|].
    split; [discriminate | reflexivity].
Qed.

End NamesAndOrder.

(** X3.  Every record of the mapping carries, under "key", the key it is
    stored under, and its "key", "parent" and "stem" entries are computed
    from the first regular file, in sorted order, bearing that key: the
    directory of the file relative to the root, its stem, and the two
    joined. *)
Theorem records_named_after_first_file (fs : FileSystem) (store : Store)
  (clips_path : Path) (w : World (store_db store)) (m : dict clip_info)
  (w' : World (store_db store)) :
  scan_clips fs store clips_path w = (Ok m, w') ->
  forall k info, In (k, info) m ->
    ci_key info = k /\
    exists p parent,
      find (has_key clips_path k)
        (regular fs (sorted (fs_rglob fs clips_path))) = Some p /\
      relative_to (path_parent p) clips_path = Ok parent /\
      ci_key info = path_str (joinpath parent (path_stem p)) /\
      ci_parent info = path_str parent /\
      ci_stem info = path_stem p.
Proof.
  rewrite scan_clips_unfold. intros Hrun k info Hin.
  pose proof (scan_loop_names _ _ _ _ _ Hrun) as [Hnamed _].
  apply scan_loop_invariant in Hrun as (_ & _ & [Hnd Hrec] & _).
  apply In_dict_get in Hin; auto.
  split; [apply (Hrec _ _ Hin) | apply (Hnamed _ _ Hin)].
Qed.

Lemma records_named_after_first_file_witness :
  ci_key scanned_clip = "songs/track" /\
  exists p parent,
    find (has_key sample_root "songs/track")
      (regular sample_fs (sorted (fs_rglob sample_fs sample_root))) = Some p /\
    relative_to (path_parent p) sample_root = Ok parent /\
    ci_key scanned_clip = path_str (joinpath parent (path_stem p)) /\
    ci_parent scanned_clip = path_str parent /\
    ci_stem scanned_clip = path_stem p.
Proof.
  apply (@records_named_after_first_file sample_fs table_store sample_root
           (mkWorld empty_db []) [("songs/track", scanned_clip)] scanned_world).
  - reflexivity.
  - simpl. now left.
Defined.

(** X4.  The keys of the mapping are the keys of the regular files taken
    in sorted order, each at its first occurrence: a clip takes its place
    in the mapping, and so in the order of the writer, when its first file
    is met, and later variants do not move it. *)
Theorem keys_follow_scan_order (fs : FileSystem) (store : Store)
  (clips_path : Path) (w : World (store_db store)) (m : dict clip_info)
  (w' : World (store_db store)) :
  scan_clips fs store clips_path w = (Ok m, w') ->
  dict_keys m =
  first_occurrences
    (keys_of clips_path (regular fs (sorted (fs_rglob fs clips_path)))).
Proof.
  rewrite scan_clips_unfold. intros Hrun.
  exact (proj2 (scan_loop_names _ _ _ _ _ Hrun)).
Qed.

Lemma keys_follow_scan_order_witness :
  dict_keys [("songs/track", scanned_clip)] =
  first_occurrences
    (keys_of sample_root
       (regular sample_fs (sorted (fs_rglob sample_fs sample_root)))).
Proof.
  apply (@keys_follow_scan_order sample_fs table_store sample_root
           (mkWorld empty_db []) [("songs/track", scanned_clip)] scanned_world).
  reflexivity.
Defined.

(** ** When the scan returns *)

(** X5.  On a well-formed listing [scan_clips] returns a mapping exactly
    when [is_file()] answers on every entry of the listing (it raises
    [PermissionError] on an entry whose directory cannot be searched) and
    the tag decoder raises nothing but [TinyTagException] on the first
    regular file, in sorted order, of each key.  What the decoder would do
    on a later variant of a clip is of no account; an exception of
    [is_file()], or any other exception of the decoder on a first file,
    ends the scan without a mapping. *)
Theorem scan_returns_iff_first_files_decodable (fs : FileSystem)
  (store : Store) (clips_path : Path) (w : World (store_db store)) :
  well_formed_listing clips_path (fs_rglob fs clips_path) ->
  ((exists m w', scan_clips fs store clips_path w = (Ok m, w')) <->
   ((forall p, In p (fs_rglob fs clips_path) -> is_file_answers fs p = true) /\
    first_files_benign fs clips_path (sorted (fs_rglob fs clips_path)))).
Proof.
  intros Hwf. rewrite scan_clips_unfold. split.
  - intros (m & w' & Hrun). split.
    + intros p Hin. eapply scan_loop_answers; [exact Hrun|].
      eapply Permutation_in; [symmetry; apply sorted_perm | exact Hin].
    + intros k p Hfind.
      apply scan_loop_invariant in Hrun as (_ & _ & _ & Hcov & Hfirst & _).
      specialize (Hcov k).
      destruct (dict_get k m) as [info|] eqn:Hget; [|congruence].
      destruct (Hfirst _ _ Hget) as (q & t & Hq & Hex & _).
      rewrite Hfind in Hq. injection Hq as <-.
      eapply extracted_ok_benign; eauto.
  - intros [Hanswers Hbenign].
    assert (forall p, In p (sorted (fs_rglob fs clips_path)) ->
                      In p (fs_rglob fs clips_path)) as Hsorted
      by (intros p; apply Permutation_in, sorted_perm).
    eapply (@scan_loop_returns fs store clips_path
              (sorted (fs_rglob fs clips_path))) with (pre := @nil Path).
    + intros p Hin. eapply well_formed_In; eauto.
    + auto.
    + exact Hbenign.
    + reflexivity.
    + split; [constructor | discriminate].
    + intros k. reflexivity.
Qed.

Lemma scan_returns_iff_first_files_decodable_witness :
  ~ exists m w',
      scan_clips locked_fs table_store sample_root (mkWorld empty_db []) =
      (Ok m, w').
Proof.
  intros Hrun.
  apply (@scan_returns_iff_first_files_decodable locked_fs table_store
           sample_root (mkWorld empty_db [])) in Hrun; [|reflexivity].
  destruct Hrun as [Hanswers _].
  specialize (Hanswers ["clips"; "locked"; "sub"]).
  simpl in Hanswers. discriminate Hanswers. auto.
Defined.

(** * Further properties of the writer *)

Lemma printed_app (evs evs' : list Event) :
  printed (evs ++ evs') = printed evs ++ printed evs'.
Proof.
  induction evs as [|e evs IH]; simpl; auto. destruct e; simpl; congruence.
Qed.

(** A pass of the per-clip protocol that returns has printed the notice of
    the record when the record has no tags, and nothing otherwise. *)
Lemma write_clip_prints (store : Store) (clips_info : dict clip_info)
  (clip : string) (w w' : World (store_db store)) :
  write_clip store clips_info clip w = (Ok tt, w') ->
  exists info evs,
    dict_get clip clips_info = Some info /\
    w_events w' = w_events w ++ evs /\
    printed evs = if has_tags info then [] else [notice info].
Proof.
  unfold write_clip, cursor, cursor_close, fetchone, print, cursor_execute.
  unfold bind, lift, emit, ret.
  destruct (dict_get clip clips_info) as [info|]; [|discriminate].
  simpl. destruct_execute.
  assert (forall evs : list Event,
             printed evs = (if has_tags info then [] else [notice info]) ->
             exists info0 evs0,
               Some info = Some info0 /\
               (w_events w ++ [ECursor]) ++ evs = w_events w ++ evs0 /\
               printed evs0 = if has_tags info0 then [] else [notice info0])
    as Hdone.
  { intros evs Hpr. exists info, ([ECursor] ++ evs).
    split; [reflexivity|]. split; [now rewrite app_assoc|]. exact Hpr. }
  unfold has_tags in Hdone.
  destruct (ci_tags info) as [[tags|]|]; simpl.
  - destruct_execute. destruct (row_truthy (hd_error rows0)); simpl.
    + destruct_execute. intros [= <-]. simpl. rewrite <- !app_assoc.
      rewrite app_assoc. apply Hdone. reflexivity.
    + intros [= <-]. simpl. rewrite <- !app_assoc.
      rewrite app_assoc. apply Hdone. reflexivity.
  - intros [= <-]. simpl. rewrite <- !app_assoc.
    rewrite app_assoc. apply Hdone. reflexivity.
  - intros [= <-]. simpl. rewrite <- !app_assoc.
    rewrite app_assoc. apply Hdone. reflexivity.
Qed.

Lemma write_loop_prints (store : Store) (clips_info : dict clip_info)
  (keys : list string) (w w' : World (store_db store)) :
  for_each (fun _ clip => write_clip store clips_info clip) keys tt w =
  (Ok tt, w') ->
  exists evs,
    w_events w' = w_events w ++ evs /\
    printed evs =
    map notice
      (filter (fun info => negb (has_tags info))
         (flat_map (fun clip => match dict_get clip clips_info with
                                | Some info => [info]
                                | None => []
                                end) keys)).
Proof.
  revert w. induction keys as [|clip keys IH]; intros w; simpl.
  - intros [= <-]. exists []. now rewrite app_nil_r.
  - unfold bind.
    destruct (write_clip store clips_info clip w) as [[[]|e] w1] eqn:Hclip;
      [|discriminate].
    intros Hrest.
    apply write_clip_prints in Hclip as (info & evs1 & Hget & Hev1 & Hpr).
    apply IH in Hrest as (evs2 & Hev2 & Hall).
    exists (evs1 ++ evs2). split; [now rewrite Hev2, Hev1, app_assoc|].
    rewrite printed_app, Hpr, Hall, Hget, filter_app, map_app. simpl.
    now destruct (has_tags info).
Qed.

(** X6.  When [create_database_entries] returns, it has printed one
    notice for each record it visited that has no tags (no "tags" entry,
    or one holding [None]), in the order of the mapping, each naming the
    "key" entry of the record; for a record with tags it prints nothing. *)
Theorem one_notice_per_untagged_clip (store : Store)
  (clips_info : dict clip_info) (settings : dict Value)
  (w w' : World (store_db store)) :
  settings <> [] ->
  create_database_entries store clips_info settings w = (Ok tt, w') ->
  exists evs,
    w_events w' = w_events w ++ evs /\
    printed evs =
    map notice (filter (fun info => negb (has_tags info)) (visited clips_info)).
Proof.
  intros Hne. unfold create_database_entries, connect, connection_close.
  destruct settings as [|kv settings]; [congruence|].
  unfold bind, emit, lift. simpl.
  destruct (store_connect store (kv :: settings)) as [[]|e]; [|discriminate].
  match goal with
  | |- context [for_each ?b ?l ?s ?w0] =>
      destruct (for_each b l s w0) as [[[]|e] w1] eqn:Hloop
  end; [|discriminate].
  intros [= <-].
  apply write_loop_prints in Hloop as (evs1 & Hev1 & Hpr).
  simpl in *. exists ([EConnect (kv :: settings)] ++ evs1 ++ [EConnectionClose]).
  split; [now rewrite Hev1, <- !app_assoc|].
  rewrite !printed_app, Hpr. simpl. now rewrite app_nil_r.
Qed.

Lemma one_notice_per_untagged_clip_witness :
  printed
    [EConnect sample_settings; ECursor; EExecute (inventory_stmt untagged_clip);
     ECursorClose;
     EPrint "songs/intro does not have any audio tag metadata.";
     ECursor; EExecute (inventory_stmt tagged_clip); ECursorClose; ECursor;
     EExecute (mkStmt SELECT_ID [VStr "songs/track"]); EFetchone; ECursorClose;
     ECursor;
     EExecute (mkStmt INSERT_TAG
                 [VInt 2; VStr "A"; VStr "B"; VStr "T"; VInt 2001]);
     ECursorClose; EConnectionClose] =
  map notice
    (filter (fun info => negb (has_tags info))
       (visited [("songs/intro", untagged_clip); ("songs/track", tagged_clip)])).
Proof.
  destruct (@one_notice_per_untagged_clip table_store
              [("songs/intro", untagged_clip); ("songs/track", tagged_clip)]
              sample_settings (mkWorld empty_db [])
              (snd (create_database_entries table_store
                      [("songs/intro", untagged_clip);
                       ("songs/track", tagged_clip)]
                      sample_settings (mkWorld empty_db []))))
    as (evs & Hev & Hpr).
  - discriminate.
  - reflexivity.
  - simpl in Hev. subst evs. exact Hpr.
Defined.

(** X7.  For a clip that has tags, when the inventory statement succeeds
    and the identity lookup yields a row that is not empty, the per-clip
    protocol goes on to execute one tag statement whose parameters are the
    first column of that row followed by the artist, album, title and year
    of the record, in this order, and prints nothing.  Whatever the store
    answers to the tag statement decides the end: when it succeeds, the
    protocol closes its cursor and returns; when it raises, the exception
    leaves the protocol with the cursor left open. *)
Theorem tag_row_follows_identity (store : Store)
  (clips_info : dict clip_info) (clip : string) (info : clip_info)
  (tags : tag_dict) (w : World (store_db store))
  (rows0 rows : list Row) (id : Value) (rest : Row)
  (r3 : result (list Row)) (db1 db2 db3 : store_db store) :
  dict_get clip clips_info = Some info ->
  ci_tags info = Some (Some tags) ->
  store_execute store (inventory_stmt info) (w_db w) = (Ok rows0, db1) ->
  store_execute store (mkStmt SELECT_ID [VStr (ci_key info)]) db1 =
    (Ok ((id :: rest) :: rows), db2) ->
  store_execute store
    (mkStmt INSERT_TAG
       [id; tag_artist tags; tag_album tags; tag_title tags; tag_year tags])
    db2 = (r3, db3) ->
  write_clip store clips_info clip w =
  (match r3 with
   | Ok _ => Ok tt
   | Raise e => Raise e
   end,
   mkWorld db3
     (w_events w ++
      [ECursor; EExecute (inventory_stmt info); ECursorClose; ECursor;
       EExecute (mkStmt SELECT_ID [VStr (ci_key info)]); EFetchone;
       ECursorClose; ECursor;
       EExecute
         (mkStmt INSERT_TAG
            [id; tag_artist tags; tag_album tags; tag_title tags;
             tag_year tags])] ++
      match r3 with
      | Ok _ => [ECursorClose]
      | Raise _ => []
      end)).
Proof.
  intros Hget Htags Hins Hsel Htag.
  unfold write_clip, cursor, cursor_close, fetchone, print, cursor_execute.
  unfold bind, lift, emit, ret. rewrite Hget. simpl.
  unfold inventory_stmt in Hins. rewrite Hins. simpl.
  rewrite Htags. simpl. rewrite Hsel. simpl. rewrite Htag.
  destruct r3 as [rows3|e]; simpl; rewrite <- !app_assoc; reflexivity.
Qed.

Lemma tag_row_follows_identity_witness :
  write_clip table_store [("songs/track", tagged_clip)] "songs/track"
    (mkWorld empty_db []) =
  (Ok tt,
   mkWorld
     (mkDb [(1%Z, stmt_params (inventory_stmt tagged_clip))]
        [[VInt 1; VStr "A"; VStr "B"; VStr "T"; VInt 2001]])
     [ECursor; EExecute (inventory_stmt tagged_clip); ECursorClose; ECursor;
      EExecute (mkStmt SELECT_ID [VStr "songs/track"]); EFetchone;
      ECursorClose; ECursor;
      EExecute
        (mkStmt INSERT_TAG [VInt 1; VStr "A"; VStr "B"; VStr "T"; VInt 2001]);
      ECursorClose]).
Proof.
  apply (@tag_row_follows_identity table_store [("songs/track", tagged_clip)]
           "songs/track" tagged_clip
           (mkTags (VStr "B") (VStr "A") (VStr "T") (VInt 2001))
           (mkWorld empty_db []) [] [] (VInt 1) [] (Ok [])
           (mkDb [(1%Z, stmt_params (inventory_stmt tagged_clip))] [])
           (mkDb [(1%Z, stmt_params (inventory_stmt tagged_clip))] [])
           (mkDb [(1%Z, stmt_params (inventory_stmt tagged_clip))]
              [[VInt 1; VStr "A"; VStr "B"; VStr "T"; VInt 2001]]));
    reflexivity.
Defined.

(** X8.  When the store raises on the inventory statement of a clip, the
    per-clip protocol raises the same exception at once: the cursor it
    opened is not closed, no lookup and no tag statement is executed, and
    no notice is printed for the clip. *)
Theorem inventory_failure_ends_pass (store : Store)
  (clips_info : dict clip_info) (clip : string) (info : clip_info)
  (w : World (store_db store)) (e : exn) (db1 : store_db store) :
  dict_get clip clips_info = Some info ->
  store_execute store (inventory_stmt info) (w_db w) = (Raise e, db1) ->
  write_clip store clips_info clip w =
  (Raise e,
   mkWorld db1 (w_events w ++ [ECursor; EExecute (inventory_stmt info)])).
Proof.
  intros Hget Hins.
  unfold write_clip, cursor, cursor_close, fetchone, print, cursor_execute.
  unfold bind, lift, emit, ret. rewrite Hget. simpl.
  unfold inventory_stmt in Hins. rewrite Hins. simpl.
  rewrite <- !app_assoc. reflexivity.
Qed.

Lemma inventory_failure_ends_pass_witness :
  write_clip table_store [("songs/track", tagged_clip)] "songs/track"
    (mkWorld recorded_db []) =
  (Raise (Error "IntegrityError"),
   mkWorld recorded_db [ECursor; EExecute (inventory_stmt tagged_clip)]).
Proof.
  apply (@inventory_failure_ends_pass table_store
           [("songs/track", tagged_clip)] "songs/track" tagged_clip
           (mkWorld recorded_db []) (Error "IntegrityError") recorded_db);
    reflexivity.
Defined.






(** * Further properties of the script *)

Lemma scan_clips_no_connect (fs : FileSystem) (store : Store) (root : Path)
  (w : World (store_db store)) (r : result (dict clip_info))
  (w' : World (store_db store)) (s : dict Value) :
  scan_clips fs store root w = (r, w') ->
  In (EConnect s) (w_events w') -> In (EConnect s) (w_events w).
Proof.
  rewrite scan_clips_unfold. intros Hrun Hin.
  apply scan_loop_effects in Hrun as (_ & evs & Hev & Hall).
  rewrite Hev in Hin. simpl in Hin.
  apply in_app_or in Hin as [Hin|Hin].
  - apply in_app_or in Hin as [Hin|[Hin|[]]]; [exact Hin | discriminate].
  - exfalso. rewrite Forall_forall in Hall.
    destruct (Hall _ Hin) as (p & Hp & _). discriminate.
Qed.

(** X10.  The script opens a store connection only after a scan that
    returned a mapping with at least one clip, and then with the database
    settings as it read them: whatever way a run ends, a connection it
    asked for was asked for with [_database_settings], these are not
    empty, "clips_directory" held a string, and [scan_clips] on that
    directory returned a mapping that is not empty. *)
Theorem main_connects_after_nonempty_scan (fs : FileSystem) (store : Store)
  (app_settings database_settings : dict Value)
  (w : World (store_db store)) (r : result (dict clip_info))
  (w' : World (store_db store)) (s : dict Value) :
  main fs store app_settings database_settings w = (r, w') ->
  In (EConnect s) (w_events w') ->
  In (EConnect s) (w_events w) \/
  (s = database_settings /\ database_settings <> [] /\
   exists dir m w1,
     dict_get "clips_directory" app_settings = Some (VStr dir) /\
     scan_clips fs store (Path_of_string dir) w = (Ok m, w1) /\
     m <> []).
Proof.
  unfold main.
  destruct (dict_get "clips_directory" app_settings) as [v|] eqn:Hdir;
    [|intros [= _ <-]; auto].
  destruct (negb (truthy v)); [intros [= _ <-]; auto|].
  destruct database_settings as [|kv settings] eqn:Hdb;
    [intros [= _ <-]; auto|].
  rewrite <- Hdb. unfold bind at 1. unfold lift.
  destruct v as [|dir| |]; try (intros [= _ <-]; auto).
  unfold bind at 1.
  destruct (scan_clips fs store (Path_of_string dir) w) as [[m|e] w1] eqn:Hscan.
  - unfold bind.
    destruct m as [|kv0 m].
    + unfold ret. intros [= _ <-] Hin. left.
      eapply scan_clips_no_connect; eauto.
    + destruct (create_database_entries store (kv0 :: m) database_settings w1)
        as [[[]|e] w2] eqn:Hwrite;
        (assert (emits (fun e => forall s0, e = EConnect s0 ->
                                            s0 = database_settings)
                   (create_database_entries store (kv0 :: m) database_settings))
          as Hemits
            by (apply create_database_entries_emits; try discriminate;
                intros; try discriminate; congruence));
        destruct (Hemits _ _ _ Hwrite) as (evs & Hev & Hall);
        unfold ret; intros [= _ <-] Hin;
        rewrite Hev in Hin; apply in_app_or in Hin as [Hin|Hin].
      * left. eapply scan_clips_no_connect; eauto.
      * right. rewrite Forall_forall in Hall.
        split; [exact (Hall _ Hin s eq_refl)|].
        split; [rewrite Hdb; discriminate|].
        exists dir, (kv0 :: m), w1. repeat split; auto. discriminate.
      * left. eapply scan_clips_no_connect; eauto.
      * right. rewrite Forall_forall in Hall.
        split; [exact (Hall _ Hin s eq_refl)|].
        split; [rewrite Hdb; discriminate|].
        exists dir, (kv0 :: m), w1. repeat split; auto. discriminate.
  - intros [= _ <-] Hin. left. eapply scan_clips_no_connect; eauto.
Qed.

Lemma main_connects_after_nonempty_scan_witness :
  In (EConnect sample_settings) [] \/
  (sample_settings = sample_settings /\ sample_settings <> [] /\
   exists dir m w1,
     dict_get "clips_directory" sample_app_settings = Some (VStr dir) /\
     scan_clips sample_fs table_store (Path_of_string dir)
       (mkWorld empty_db []) = (Ok m, w1) /\
     m <> []).
Proof.
  apply (@main_connects_after_nonempty_scan sample_fs table_store
           sample_app_settings sample_settings (mkWorld empty_db [])
           (fst (main sample_fs table_store sample_app_settings sample_settings
                   (mkWorld empty_db [])))
           (snd (main sample_fs table_store sample_app_settings sample_settings
                   (mkWorld empty_db [])))).
  - reflexivity.
  - simpl. right. right. now left.
Defined.

Lemma filter_all_false (A : Type) (f : A -> bool) (l : list A) :
  (forall x, In x l -> f x = false) -> filter f l = [].
Proof.
  induction l as [|a l IH]; intros H; simpl; auto.
  rewrite (H a (or_introl eq_refl)). apply IH. intros; apply H; now right.
Qed.

(** X11.  A tree without regular files costs one enumeration and nothing
    else.  When [is_file()] answers [False] on every entry under the root,
    [scan_clips] returns the empty mapping without calling the tag decoder;
    and the script, given a directory name and database settings that are
    not empty, then ends normally without opening a store connection. *)
Theorem tree_without_files_writes_nothing (fs : FileSystem) (store : Store)
  (dir : string) (app_settings database_settings : dict Value)
  (w : World (store_db store)) :
  (forall p, In p (fs_rglob fs (Path_of_string dir)) ->
             fs_is_file fs p = Ok false) ->
  dict_get "clips_directory" app_settings = Some (VStr dir) ->
  dir <> "" ->
  database_settings <> [] ->
  scan_clips fs store (Path_of_string dir) w =
    (Ok [], mkWorld (w_db w) (w_events w ++ [ERglob (Path_of_string dir)])) /\
  main fs store app_settings database_settings w =
    (Ok [], mkWorld (w_db w) (w_events w ++ [ERglob (Path_of_string dir)])).
Proof.
  intros Hnone Hdir Hne Hdb.
  assert (scan_clips fs store (Path_of_string dir) w =
          (Ok [], mkWorld (w_db w) (w_events w ++ [ERglob (Path_of_string dir)])))
    as Hscan.
  { rewrite scan_clips_unfold, scan_loop_regular.
    rewrite filter_all_false; [reflexivity|].
    intros p Hin. unfold not_a_file. rewrite Hnone; [reflexivity|].
    eapply Permutation_in; [apply sorted_perm | exact Hin]. }
  split; [exact Hscan|].
  unfold main. rewrite Hdir. simpl.
  apply String.eqb_neq in Hne. rewrite Hne. simpl.
  destruct database_settings as [|kv settings]; [congruence|].
  unfold bind at 1. unfold lift. unfold bind at 1. rewrite Hscan.
  reflexivity.
Qed.

Lemma tree_without_files_writes_nothing_witness :
  main bare_fs table_store sample_app_settings sample_settings
    (mkWorld empty_db []) =
  (Ok [], mkWorld empty_db [ERglob (Path_of_string "clips")]).
Proof.
  apply (@tree_without_files_writes_nothing bare_fs table_store "clips"
           sample_app_settings sample_settings (mkWorld empty_db [])).
  - reflexivity.
  - reflexivity.
  - discriminate.
  - discriminate.
Defined.

(** * Further properties: suffixes, lookups, and the script end to end *)

(** X12.  In the mapping [scan_clips] returns, the "suffixes" entry of
    every record lists the suffix of each regular file bearing the key of
    the record, in sorted order of the files and with repetitions: there
    are as many suffixes as files of the clip. *)
Theorem suffixes_list_every_variant (fs : FileSystem) (store : Store)
  (clips_path : Path) (w : World (store_db store)) (m : dict clip_info)
  (w' : World (store_db store)) :
  scan_clips fs store clips_path w = (Ok m, w') ->
  forall k info, In (k, info) m ->
    ci_suffixes info =
    map path_suffix
      (filter (has_key clips_path k)
         (regular fs (sorted (fs_rglob fs clips_path)))) /\
    List.length (ci_suffixes info) =
    List.length
      (filter (has_key clips_path k) (regular fs (fs_rglob fs clips_path))).
Proof.
  intros Hrun k info Hin.
  apply scan_clips_invariant in Hrun as (evs & _ & [Hnd _] & Hcov & _ & _).
  apply In_dict_get in Hin; auto.
  specialize (Hcov k). rewrite Hin in Hcov.
  split; [exact Hcov|].
  rewrite Hcov, length_map. apply Permutation_length.
  unfold regular. apply filter_perm, filter_perm, sorted_perm.
Qed.

Lemma suffixes_list_every_variant_witness :
  ci_suffixes scanned_clip =
  map path_suffix
    (filter (has_key sample_root "songs/track")
       (regular sample_fs (sorted (fs_rglob sample_fs sample_root)))) /\
  List.length (ci_suffixes scanned_clip) =
  List.length
    (filter (has_key sample_root "songs/track")
       (regular sample_fs (fs_rglob sample_fs sample_root))).
Proof.
  apply (@suffixes_list_every_variant sample_fs table_store sample_root
           (mkWorld empty_db []) [("songs/track", scanned_clip)] scanned_world).
  - reflexivity.
  - simpl. now left.
Defined.

Lemma lookups_app (evs evs' : list Event) :
  lookups (evs ++ evs') = lookups evs ++ lookups evs'.
Proof. unfold lookups. now rewrite executed_app, filter_app. Qed.

Lemma tag_inserts_app (evs evs' : list Event) :
  tag_inserts (evs ++ evs') = tag_inserts evs ++ tag_inserts evs'.
Proof. unfold tag_inserts. now rewrite executed_app, filter_app. Qed.

(** A pass of the per-clip protocol that returns has looked the identity
    up once when the record has tags and not at all otherwise, and has
    executed a tag statement only after a lookup. *)
Lemma write_clip_lookups (store : Store) (clips_info : dict clip_info)
  (clip : string) (w w' : World (store_db store)) :
  write_clip store clips_info clip w = (Ok tt, w') ->
  exists info evs,
    dict_get clip clips_info = Some info /\
    w_events w' = w_events w ++ evs /\
    lookups evs = (if has_tags info then [lookup_stmt info] else []) /\
    List.length (tag_inserts evs) <= List.length (lookups evs).
Proof.
  unfold write_clip, cursor, cursor_close, fetchone, print, cursor_execute.
  unfold bind, lift, emit, ret.
  destruct (dict_get clip clips_info) as [info|]; [|discriminate].
  simpl. destruct_execute.
  assert (forall evs : list Event,
             lookups evs = (if has_tags info then [lookup_stmt info] else []) ->
             List.length (tag_inserts evs) <= List.length (lookups evs) ->
             exists info0 evs0,
               Some info = Some info0 /\
               (w_events w ++ [ECursor]) ++ evs = w_events w ++ evs0 /\
               lookups evs0 =
                 (if has_tags info0 then [lookup_stmt info0] else []) /\
               List.length (tag_inserts evs0) <= List.length (lookups evs0))
    as Hdone.
  { intros evs Hl Hle. exists info, ([ECursor] ++ evs).
    split; [reflexivity|]. split; [now rewrite app_assoc|].
    rewrite lookups_app, tag_inserts_app. simpl. auto. }
  unfold has_tags, lookup_stmt in Hdone.
  destruct (ci_tags info) as [[tags|]|]; simpl.
  - destruct_execute. destruct (row_truthy (hd_error rows0)); simpl.
    + destruct_execute. intros [= <-]. simpl. rewrite <- !app_assoc.
      rewrite app_assoc. apply Hdone; [reflexivity | simpl; lia].
    + intros [= <-]. simpl. rewrite <- !app_assoc.
      rewrite app_assoc. apply Hdone; [reflexivity | simpl; lia].
  - intros [= <-]. simpl. rewrite <- !app_assoc.
    rewrite app_assoc. apply Hdone; [reflexivity | simpl; lia].
  - intros [= <-]. simpl. rewrite <- !app_assoc.
    rewrite app_assoc. apply Hdone; [reflexivity | simpl; lia].
Qed.

Lemma write_loop_lookups (store : Store) (clips_info : dict clip_info)
  (keys : list string) (w w' : World (store_db store)) :
  for_each (fun _ clip => write_clip store clips_info clip) keys tt w =
  (Ok tt, w') ->
  exists evs,
    w_events w' = w_events w ++ evs /\
    lookups evs =
    map lookup_stmt
      (filter has_tags
         (flat_map (fun clip => match dict_get clip clips_info with
                                | Some info => [info]
                                | None => []
                                end) keys)) /\
    List.length (tag_inserts evs) <= List.length (lookups evs).
Proof.
  revert w. induction keys as [|clip keys IH]; intros w; simpl.
  - intros [= <-]. exists []. rewrite app_nil_r. auto.
  - unfold bind.
    destruct (write_clip store clips_info clip w) as [[[]|e] w1] eqn:Hclip;
      [|discriminate].
    intros Hrest.
    apply write_clip_lookups in Hclip as (info & evs1 & Hget & Hev1 & Hl1 & Hle1).
    apply IH in Hrest as (evs2 & Hev2 & Hl2 & Hle2).
    exists (evs1 ++ evs2). split; [now rewrite Hev2, Hev1, app_assoc|].
    rewrite lookups_app, tag_inserts_app, !length_app. split; [|lia].
    rewrite Hl1, Hl2, Hget, filter_app, map_app. simpl.
    now destruct (has_tags info).
Qed.

(** X13.  When [create_database_entries] returns, it has looked up the
    identity of exactly the records it visited that have tags, once each
    and in the order of the mapping, by the "key" entry of the record;
    and it has executed at most as many tag statements as lookups.  With
    X6: a clip is either looked up or announced as lacking tags, never
    both. *)
Theorem one_lookup_per_tagged_clip (store : Store)
  (clips_info : dict clip_info) (settings : dict Value)
  (w w' : World (store_db store)) :
  settings <> [] ->
  create_database_entries store clips_info settings w = (Ok tt, w') ->
  exists evs,
    w_events w' = w_events w ++ evs /\
    lookups evs = map lookup_stmt (filter has_tags (visited clips_info)) /\
    List.length (tag_inserts evs) <= List.length (lookups evs).
Proof.
  intros Hne. unfold create_database_entries, connect, connection_close.
  destruct settings as [|kv settings]; [congruence|].
  unfold bind, emit, lift. simpl.
  destruct (store_connect store (kv :: settings)) as [[]|e]; [|discriminate].
  match goal with
  | |- context [for_each ?b ?l ?s ?w0] =>
      destruct (for_each b l s w0) as [[[]|e] w1] eqn:Hloop
  end; [|discriminate].
  intros [= <-].
  apply write_loop_lookups in Hloop as (evs1 & Hev1 & Hl & Hle).
  simpl in *. exists ([EConnect (kv :: settings)] ++ evs1 ++ [EConnectionClose]).
  split; [now rewrite Hev1, <- !app_assoc|].
  rewrite !lookups_app, !tag_inserts_app. simpl.
  rewrite !app_nil_r. split; [exact Hl | exact Hle].
Qed.

Lemma one_lookup_per_tagged_clip_witness :
  lookups
    (w_events
       (snd (create_database_entries table_store
               [("songs/intro", untagged_clip); ("songs/track", tagged_clip)]
               sample_settings (mkWorld empty_db [])))) =
  [lookup_stmt tagged_clip].
Proof.
  destruct (@one_lookup_per_tagged_clip table_store
              [("songs/intro", untagged_clip); ("songs/track", tagged_clip)]
              sample_settings (mkWorld empty_db [])
              (snd (create_database_entries table_store
                      [("songs/intro", untagged_clip);
                       ("songs/track", tagged_clip)]
                      sample_settings (mkWorld empty_db []))))
    as (evs & Hev & Hl & _).
  - discriminate.
  - reflexivity.
  - simpl in Hev. subst evs. exact Hl.
Defined.

Lemma decoder_calls_no_inserts (fs : FileSystem) (l : list Path)
  (evs : list Event) :
  Forall (decoder_call fs l) evs -> clip_inserts evs = [].
Proof.
  induction 1 as [|e evs (p & -> & _) _ IH]; [reflexivity | exact IH].
Qed.

(** A run of the writer that returns is the connection, the loop over the
    keys, and the closing of the connection. *)
Lemma create_database_entries_returns (store : Store)
  (clips_info : dict clip_info) (settings : dict Value)
  (w w' : World (store_db store)) :
  settings <> [] ->
  create_database_entries store clips_info settings w = (Ok tt, w') ->
  exists w1,
    for_each (fun _ clip => write_clip store clips_info clip)
      (dict_keys clips_info) tt
      (mkWorld (w_db w) (w_events w ++ [EConnect settings])) = (Ok tt, w1) /\
    w_events w' = w_events w1 ++ [EConnectionClose].
Proof.
  intros Hne. unfold create_database_entries, connect, connection_close.
  destruct settings as [|kv settings]; [congruence|].
  unfold bind at 1 2 3. unfold emit at 1. unfold lift.
  destruct (store_connect store (kv :: settings)) as [[]|e]; [|discriminate].
  unfold bind.
  match goal with
  | |- context [for_each ?b ?l ?s ?w0] =>
      destruct (for_each b l s w0) as [[[]|e] w1] eqn:Hloop
  end; [|discriminate].
  unfold emit. intros [= <-]. exists w1. split; reflexivity.
Qed.

(** X14.  End to end: when the script terminates normally, the mapping
    it bound is the one [scan_clips] returned for the directory named
    under "clips_directory", and the run has executed exactly one
    inventory statement for each clip of that mapping, in the order of the
    mapping. *)
Theorem main_writes_every_scanned_clip (fs : FileSystem) (store : Store)
  (app_settings database_settings : dict Value)
  (w : World (store_db store)) (m : dict clip_info)
  (w' : World (store_db store)) :
  main fs store app_settings database_settings w = (Ok m, w') ->
  exists dir w1 evs,
    dict_get "clips_directory" app_settings = Some (VStr dir) /\
    scan_clips fs store (Path_of_string dir) w = (Ok m, w1) /\
    w_events w' = w_events w ++ evs /\
    Forall2 (fun s clip =>
               exists info,
                 dict_get clip m = Some info /\ s = inventory_stmt info)
      (clip_inserts evs) (dict_keys m).
Proof.
  unfold main.
  destruct (dict_get "clips_directory" app_settings) as [v|] eqn:Hdir;
    [|discriminate].
  destruct (negb (truthy v)); [discriminate|].
  destruct database_settings as [|kv settings] eqn:Hdb; [discriminate|].
  rewrite <- Hdb. unfold bind at 1. unfold lift.
  destruct v as [|dir| |]; try discriminate.
  unfold bind at 1.
  destruct (scan_clips fs store (Path_of_string dir) w) as [[m0|e] w1] eqn:Hscan;
    [|discriminate].
  pose proof Hscan as Hscan'. rewrite scan_clips_unfold in Hscan'.
  apply scan_loop_effects in Hscan' as (_ & evs1 & Hev1 & Hcalls).
  apply decoder_calls_no_inserts in Hcalls. simpl in Hev1.
  unfold bind. destruct m0 as [|kv0 m0].
  - unfold ret. intros [= <- <-].
    exists dir, w1, ([ERglob (Path_of_string dir)] ++ evs1).
    split; [reflexivity|]. split; [exact Hscan|].
    split; [now rewrite Hev1, <- app_assoc|].
    rewrite clip_inserts_app, Hcalls. constructor.
  - destruct (create_database_entries store (kv0 :: m0) database_settings w1)
      as [[[]|e] w2] eqn:Hwrite; [|discriminate].
    unfold ret. intros [= <- <-].
    apply create_database_entries_returns in Hwrite as (w3 & Hloop & Hev3);
      [|rewrite Hdb; discriminate].
    apply write_loop_inserts in Hloop as (evs2 & Hev2 & Hins).
    simpl w_events in Hev2.
    exists dir, w1,
      ([ERglob (Path_of_string dir)] ++ evs1 ++
       [EConnect database_settings] ++ evs2 ++ [EConnectionClose]).
    split; [reflexivity|]. split; [exact Hscan|].
    split; [now rewrite Hev3, Hev2, Hev1, <- !app_assoc|].
    rewrite !clip_inserts_app, Hcalls.
    change (clip_inserts [ERglob (Path_of_string dir)]) with (@nil Stmt).
    change (clip_inserts [EConnect database_settings]) with (@nil Stmt).
    change (clip_inserts [EConnectionClose]) with (@nil Stmt).
    rewrite app_nil_r. exact Hins.
Qed.

Lemma main_writes_every_scanned_clip_witness :
  exists dir w1 evs,
    dict_get "clips_directory" sample_app_settings = Some (VStr dir) /\
    scan_clips sample_fs table_store (Path_of_string dir)
      (mkWorld empty_db []) = (Ok [("songs/track", scanned_clip)], w1) /\
    w_events
      (snd (main sample_fs table_store sample_app_settings sample_settings
              (mkWorld empty_db []))) = [] ++ evs /\
    Forall2 (fun s clip =>
               exists info,
                 dict_get clip [("songs/track", scanned_clip)] = Some info /\
                 s = inventory_stmt info)
      (clip_inserts evs) (dict_keys [("songs/track", scanned_clip)]).
Proof.
  apply (@main_writes_every_scanned_clip sample_fs table_store
           sample_app_settings sample_settings (mkWorld empty_db [])).
  reflexivity.
Defined.
